(** * Cat in a parallax forest: scene generation, frame composition and capture

    A shallow embedding of [src/app/page.tsx].

    JavaScript numbers are abstracted by the class [JsNum]: the drawing and
    generation code is written once against it.  Three instances are used:
    - [F64]: IEEE-754 binary64 through Rocq's primitive floats, with the exact
      remainder of ECMAScript's [%]; this is the semantics of the browser and
      is used to evaluate the code at concrete inputs;
    - [Q]: exact rational arithmetic, the idealisation of the same code
      without rounding, used for proofs over all inputs;
    - [R]: real arithmetic with the real sine, used where [Math.sin] matters. *)

From Stdlib Require Import ZArith QArith Qround List Sorted Permutation String Bool Lia Psatz.
From Stdlib Require Import PrimFloat FloatOps SpecFloat.
From Stdlib Require Import Reals.
Import ListNotations.

Open Scope Z_scope.

(** ** JavaScript numbers *)

Class JsNum (num : Type) := {
  js_add : num -> num -> num;
  js_sub : num -> num -> num;
  js_mul : num -> num -> num;
  js_div : num -> num -> num;
  js_neg : num -> num;             (** unary [-] *)
  js_rem : num -> num -> num;      (** the [%] operator: truncated remainder *)
  js_lit : Q -> num;               (** a numeric literal of the source *)
  js_leb : num -> num -> bool;     (** [<=] *)
  js_floor : num -> Z              (** used only to bound a [for] loop *)
}.

Class JsMath (num : Type) := {
  js_sin : num -> num;             (** [Math.sin] *)
  js_cos : num -> num;             (** [Math.cos] *)
  js_PI : num                      (** [Math.PI] *)
}.

Declare Scope js_scope.
Delimit Scope js_scope with js.
Infix "+" := js_add : js_scope.
Infix "-" := js_sub : js_scope.
Infix "*" := js_mul : js_scope.
Infix "/" := js_div : js_scope.
Infix "%" := js_rem (at level 40, left associativity) : js_scope.
Notation "[# q ]" := (js_lit q%Q) (format "[# q ]") : js_scope.

(** *** Exact rationals *)

(** ECMAScript's [n % d] is [n - d * q] with [q] the quotient truncated
    towards zero. *)
Definition Qtrunc (q : Q) : Z := if Qle_bool 0 q then Qfloor q else Qceiling q.

Definition Qjs_rem (n d : Q) : Q := (n - d * inject_Z (Qtrunc (n / d)))%Q.

#[global] Instance JsNum_Q : JsNum Q := {
  js_add := Qplus; js_sub := Qminus; js_mul := Qmult; js_div := Qdiv; js_neg := Qopp;
  js_rem := Qjs_rem; js_lit := fun q => q; js_leb := Qle_bool; js_floor := Qfloor
}.

(** *** Binary64 *)

Module F64.

Definition of_Z (z : Z) : spec_float := binary_normalize prec emax z 0 false.

(** A decimal literal [n/d] (both below 2^53) rounded once to nearest. *)
Definition of_Q (q : Q) : float :=
  SF2Prim (SFdiv prec emax (of_Z (Qnum q)) (of_Z (Zpos (Qden q)))).

Definition sf_to_Q (f : spec_float) : Q :=
  match f with
  | S754_finite s m e =>
      let n := if s then Zneg m else Zpos m in
      match e with
      | Zneg p => Qmake n (Pos.shiftl 1 (Npos p))
      | _ => inject_Z (Z.shiftl n e)
      end
  | _ => 0%Q
  end.

Definition to_Q (f : float) : Q := sf_to_Q (Prim2SF f).

(** ECMAScript [%] on doubles: the exact remainder, which is representable. *)
Definition rem (a b : float) : float :=
  match Prim2SF a, Prim2SF b with
  | S754_nan, _ | _, S754_nan | S754_infinity _, _ | _, S754_zero _ => nan
  | S754_zero _, _ => a
  | S754_finite _ _ _, S754_infinity _ => a
  | S754_finite sa ma ea, S754_finite _ mb eb =>
      let e := Z.min ea eb in
      let na := Z.shiftl (if sa then Zneg ma else Zpos ma) (ea - e) in
      let nb := Z.shiftl (Zpos mb) (eb - e) in
      SF2Prim (binary_normalize prec emax (Z.rem na nb) e sa)
  end.

End F64.

#[global] Instance JsNum_F64 : JsNum float := {
  js_add := PrimFloat.add; js_sub := PrimFloat.sub; js_mul := PrimFloat.mul;
  js_div := PrimFloat.div; js_neg := PrimFloat.opp; js_rem := F64.rem; js_lit := F64.of_Q;
  js_leb := PrimFloat.leb; js_floor := fun f => Qfloor (F64.to_Q f)
}.

(** *** Reals *)

Definition Rtrunc (r : R) : Z :=
  if Rle_dec 0 r then Int_part r else (- Int_part (- r))%Z.

#[global] Instance JsNum_R : JsNum R := {
  js_add := Rplus; js_sub := Rminus; js_mul := Rmult; js_div := Rdiv; js_neg := Ropp;
  js_rem := fun n d => (n - d * IZR (Rtrunc (n / d)))%R;
  js_lit := Q2R; js_leb := fun a b => if Rle_dec a b then true else false;
  js_floor := Int_part
}.

#[global] Instance JsMath_R : JsMath R := { js_sin := sin; js_cos := cos; js_PI := PI }.

(** ** 32-bit integer operators *)

Definition two32 : Z := 4294967296.
Definition ToUint32 (z : Z) : Z := z mod two32.
Definition ToInt32 (z : Z) : Z :=
  let u := ToUint32 z in if u <? 2147483648 then u else u - two32.

Definition bxor (a b : Z) : Z := ToInt32 (Z.lxor (ToUint32 a) (ToUint32 b)).
Definition bor (a b : Z) : Z := ToInt32 (Z.lor (ToUint32 a) (ToUint32 b)).
Definition ushr (a : Z) (n : Z) : Z := Z.shiftr (ToUint32 a) n.
Definition imul (a b : Z) : Z := ToInt32 (ToUint32 a * ToUint32 b).

(** ** [mulberry32]

    The generator closes over [a], a JavaScript number (a binary64 double):
    [a += 0x6d2b79f5] is a double addition, rounded to nearest.  The
    operators [>>>], [^], [|] and [Math.imul] read [t] through ECMAScript's
    ToInt32/ToUint32, which truncate a finite double towards zero (NaN and the
    infinities give 0) and reduce it modulo 2^32.  One call returns the new [a]
    and the unsigned 32-bit word that is divided by 2^32. *)

Definition f64_trunc (f : float) : Z := Qtrunc (F64.to_Q f).

Definition mulberry32_step (a : float) : float * Z :=
  let a := PrimFloat.add a (F64.of_Q 1831565813) in
  let t := f64_trunc a in
  let t := imul (bxor t (ushr t 15)) (bor t 1) in
  let t := bxor t (t + imul (bxor t (ushr t 7)) (bor t 61)) in
  (a, ToUint32 (bxor t (ushr t 14))).

Section Rng.
Context {num : Type} `{JsNum num}.
Local Open Scope js_scope.

(** One call [rng()]: the value and the generator's next state.  The word
    and 2^32 are exact doubles and the quotient is a power-of-two scaling, so
    the division is exact. *)
Definition rng (a : float) : num * float :=
  let '(a', w) := mulberry32_step a in
  ([# inject_Z w] / [# 4294967296], a').

(** [n] successive calls of the generator [mulberry32(seed)]. *)
Fixpoint mulberry32_take (a : float) (n : nat) : list num :=
  match n with
  | O => []
  | S n' => let '(v, a') := rng a in v :: mulberry32_take a' n'
  end.
End Rng.

(** ** Tree descriptors and [generateTrees] *)

(** The parallax layer [i % 3]: 0 far, 1 mid, 2 near. *)
Inductive layer_ix := L0 | L1 | L2.

Definition layer_index (l : layer_ix) : Z :=
  match l with L0 => 0 | L1 => 1 | L2 => 2 end.

Definition layer_of_nat (n : nat) : layer_ix :=
  match n with 0%nat => L0 | 1%nat => L1 | _ => L2 end.

Module Tree.
Record t (num : Type) := mk {
  x : num; baseY : num; height : num; width : num; layer : layer_ix; hue : num
}.
Arguments mk {num}.
Arguments x {num}. Arguments baseY {num}. Arguments height {num}.
Arguments width {num}. Arguments layer {num}. Arguments hue {num}.
End Tree.

(** [Array.prototype.sort] with a comparator.  The sort is stable (ES2019);
    the stable sort of a list is unique, so insertion sort computes it. *)
Section JsSort.
Context {A : Type} (cmp : A -> A -> Z).

Fixpoint sort_insert (a : A) (l : list A) : list A :=
  match l with
  | [] => [a]
  | b :: l' => if cmp b a <=? 0 then b :: sort_insert a l' else a :: b :: l'
  end.

Definition js_sort (l : list A) : list A :=
  fold_left (fun acc a => sort_insert a acc) l [].
End JsSort.

Section Generate.
Context {num : Type} `{JsNum num}.
Local Open Scope js_scope.

Definition layer_num (l : layer_ix) : num := [# inject_Z (layer_index l)].

(** One iteration of the loop body, for index [i] and generator state [a]. *)
Definition make_tree (W H : num) (i : nat) (a : float) : Tree.t num * float :=
  let layer := layer_of_nat (Nat.modulo i 3) in
  let '(r1, a) := rng a in
  let x := r1 * W * [# 2] - W * [# 0.5] in
  let '(r2, a) := rng a in
  let baseY := H * ([# 0.65] + layer_num layer * [# 0.08]) + (r2 - [# 0.5]) * [# 20] in
  let '(r3, a) := rng a in
  let height := H * ([# 0.12] + layer_num layer * [# 0.08]) * ([# 0.8] + r3 * [# 0.4]) in
  let '(r4, a) := rng a in
  let width := height * ([# 0.06] + r4 * [# 0.04]) in
  let '(r5, a) := rng a in
  let hue := [# 115] + layer_num layer * [# 10] + r5 * [# 10] in
  (Tree.mk x baseY height width layer hue, a).

(** [for (let i = 0; i < count; i++) trees.push(...)], from index [i]. *)
Fixpoint push_trees (W H : num) (i count : nat) (a : float) : list (Tree.t num) :=
  match count with
  | O => []
  | S count' =>
      let '(tr, a') := make_tree W H i a in tr :: push_trees W H (S i) count' a'
  end.

Definition layer_cmp (a b : Tree.t num) : Z :=
  layer_index (Tree.layer a) - layer_index (Tree.layer b).

(** [mulberry32(123456)] *)
Definition mulberry32_seed : float := F64.of_Q 123456.

Definition generateTrees (count : nat) (W H : num) : list (Tree.t num) :=
  js_sort layer_cmp (push_trees W H 0 count mulberry32_seed).

(** [speed] and [px] of [drawForest]. *)
Definition layer_speed (l : layer_ix) : num :=
  match l with L0 => [# 8] | L1 => [# 16] | L2 => [# 32] end.

Definition tree_px (W t : num) (tr : Tree.t num) : num :=
  (Tree.x tr - t * layer_speed (Tree.layer tr)) % (W * [# 2]) + W.
End Generate.

(** ** The 2D drawing context

    The part of [CanvasRenderingContext2D] the compositor touches: the style
    state it sets and reads, and the current path.  Each painting call
    ([fillRect], [fill], [stroke]) emits the drawing operation it performs,
    resolved against the current state.  Gradients are created and given their
    colour stops before being assigned, so they are values here. *)

Section Canvas.
Context {num : Type}.

Inductive style :=
| Css (s : string)
| Hsl (h sat light : num)
| Linear (x0 y0 x1 y1 : num) (stops : list (num * string)).

Inductive segment :=
| MoveTo (x y : num)
| LineTo (x y : num)
| QuadTo (cpx cpy x y : num)
| Ellipse (x y rx ry rotation a0 a1 : num)
| Arc (x y r a0 a1 : num)
| ClosePath.

Inductive paint :=
| PFillRect (x y w h : num) (st : style)
| PFill (p : list segment) (st : style)
| PStroke (p : list segment) (st : style) (lineWidth : num) (lineCap : string).

Record ctx := Ctx {
  fillStyle : style; strokeStyle : style; lineWidth : num; lineCap : string;
  path : list segment
}.

Record result (A : Type) := Result { value : A; final : ctx; emitted : list paint }.

Definition M (A : Type) := ctx -> result A.

Definition ret {A} (a : A) : M A := fun c => Result _ a c [].

Definition bind {A B} (m : M A) (k : A -> M B) : M B :=
  fun c => let r := m c in let r' := k (value _ r) (final _ r) in
           Result _ (value _ r') (final _ r') (emitted _ r ++ emitted _ r').

Definition set_fillStyle (s : style) : M unit :=
  fun c => Result _ tt (Ctx s (strokeStyle c) (lineWidth c) (lineCap c) (path c)) [].
Definition set_strokeStyle (s : style) : M unit :=
  fun c => Result _ tt (Ctx (fillStyle c) s (lineWidth c) (lineCap c) (path c)) [].
Definition set_lineWidth (w : num) : M unit :=
  fun c => Result _ tt (Ctx (fillStyle c) (strokeStyle c) w (lineCap c) (path c)) [].
Definition set_lineCap (k : string) : M unit :=
  fun c => Result _ tt (Ctx (fillStyle c) (strokeStyle c) (lineWidth c) k (path c)) [].

Definition beginPath : M unit :=
  fun c => Result _ tt (Ctx (fillStyle c) (strokeStyle c) (lineWidth c) (lineCap c) []) [].
Definition add_segment (sg : segment) : M unit :=
  fun c => Result _ tt
    (Ctx (fillStyle c) (strokeStyle c) (lineWidth c) (lineCap c) (path c ++ [sg])) [].

Definition moveTo x y := add_segment (MoveTo x y).
Definition lineTo x y := add_segment (LineTo x y).
Definition quadraticCurveTo cpx cpy x y := add_segment (QuadTo cpx cpy x y).
Definition ellipse x y rx ry rot a0 a1 := add_segment (Ellipse x y rx ry rot a0 a1).
Definition arc x y r a0 a1 := add_segment (Arc x y r a0 a1).
Definition closePath := add_segment ClosePath.

Definition fill : M unit := fun c => Result _ tt c [PFill (path c) (fillStyle c)].
Definition stroke : M unit :=
  fun c => Result _ tt c [PStroke (path c) (strokeStyle c) (lineWidth c) (lineCap c)].
Definition fillRect x y w h : M unit :=
  fun c => Result _ tt c [PFillRect x y w h (fillStyle c)].

Fixpoint for_each {B} (l : list B) (body : B -> M unit) : M unit :=
  match l with
  | [] => ret tt
  | b :: l' => bind (body b) (fun _ => for_each l' body)
  end.
End Canvas.

Arguments value {num A}. Arguments final {num A}. Arguments emitted {num A}.

Notation "x <- m ;; k" := (bind m (fun x => k)) (at level 61, m at next level, right associativity).
Notation "m ;; k" := (bind m (fun _ => k)) (at level 61, right associativity).

(** ** The frame compositor *)

Section Draw.
Context {num : Type} `{JsNum num} `{JsMath num}.
Local Open Scope js_scope.

Definition nat_num (i : nat) : num := [# inject_Z (Z.of_nat i)].
Definition Z_num (i : Z) : num := [# inject_Z i].
Definition css (s : string) : @style num := Css s.

(** [ctx.createLinearGradient] followed by its [addColorStop] calls. *)
Definition linear_gradient (x0 y0 x1 y1 : num) (stops : list (num * string)) : style :=
  Linear x0 y0 x1 y1 stops.

Definition noise2D (x y : num) : num :=
  js_sin (x * [# 1.3] + y * [# 0.7]) * js_cos (x * [# 0.7] - y * [# 1.1]) * [# 0.5] + [# 0.5].

Definition drawBlob (x y w h : num) : M unit :=
  beginPath;;
  for_each (seq 0 17) (fun i =>
    let a := (nat_num i / [# 16]) * js_PI * [# 2] in
    let rx := js_cos a * w * ([# 0.45] + [# 0.1] * noise2D (js_cos a) (js_sin a)) in
    let ry := js_sin a * h * ([# 0.45] + [# 0.1] * noise2D (js_sin a) (js_cos a)) in
    let px := x + w * [# 0.5] + rx in
    let py := y + h * [# 0.5] + ry in
    if Nat.eqb i 0 then moveTo px py else lineTo px py);;
  closePath;;
  fill.

(** [for (let x = 0; x <= W; x += 8)]: the loop runs [floor (W / 8) + 1]
    times, which bounds the recursion; the test [x <= W] is kept. *)
Fixpoint hill_line (fuel : nat) (W H t yBase : num) (i : nat) (x : num) : M unit :=
  match fuel with
  | O => ret tt
  | S fuel' =>
      if js_leb x W then
        let y := yBase + [# 30] * js_sin ((x + nat_num i * [# 200]) * [# 0.004]
                                           + t * ([# 0.05] + nat_num i * [# 0.02])) in
        lineTo x y;;
        hill_line fuel' W H t yBase i (x + [# 8])
      else ret tt
  end.

Definition drawHills (W H t : num) : M unit :=
  for_each (seq 0 3) (fun i =>
    let yBase := H * ([# 0.55] - nat_num i * [# 0.07]) in
    set_fillStyle (Hsl ([# 140] + nat_num i * [# 8]) [# 25] ([# 70] - nat_num i * [# 8]));;
    beginPath;;
    moveTo [# 0] H;;
    hill_line (S (Z.to_nat (js_floor (W / [# 8])))) W H t yBase i [# 0];;
    lineTo W H;;
    closePath;;
    fill).

Definition drawForest (W H : num) (trees : list (Tree.t num)) (t : num) : M unit :=
  for_each trees (fun tr =>
    let px := tree_px W t tr in
    set_fillStyle (Hsl (Tree.hue tr) [# 25] ([# 30] + layer_num (Tree.layer tr) * [# 5]));;
    fillRect px (Tree.baseY tr - Tree.height tr) (Tree.width tr) (Tree.height tr);;
    let canopyW := Tree.width tr * [# 6] in
    let canopyH := Tree.height tr * [# 0.8] in
    set_fillStyle (Hsl (Tree.hue tr) [# 35] ([# 28] + layer_num (Tree.layer tr) * [# 8]));;
    drawBlob (px - canopyW * [# 0.3]) (Tree.baseY tr - Tree.height tr - canopyH * [# 0.5])
             canopyW canopyH).

Definition drawGrass (W H t : num) : M unit :=
  let blades := [# 140] in
  set_strokeStyle (css "#2a5f2a");;
  set_lineWidth [# 2];;
  for_each (seq 0 140) (fun i =>
    let x := ((nat_num i / blades) * W + (js_sin ((t + nat_num i) * [# 0.7]) * [# 20])) % (W) in
    let h := [# 30] + [# 20] * js_sin (nat_num i * [# 0.5] + t * [# 1.2]) in
    let sway := js_sin (t * [# 2] + nat_num i) * [# 8] in
    beginPath;;
    moveTo x (H * [# 0.98]);;
    quadraticCurveTo (x + sway) (H * [# 0.98] - h * [# 0.6]) (x + sway * [# 1.6]) (H * [# 0.98] - h);;
    stroke).

(** The pose of [drawCat]: [x], [step] and [bob] as the source computes them. *)
Definition cat_x (t W : num) : num :=
  let speed := [# 140] in
  let loopW := W + [# 300] in
  (t * speed) % (loopW) - [# 150].
Definition cat_step (t : num) : num := js_sin (t * [# 8]).
Definition cat_bob (t : num) : num := js_sin (t * [# 6]) * [# 4].

Definition drawCat (t W H : num) : M unit :=
  let groundY := H * [# 0.78] in
  let x := cat_x t W in
  let step := cat_step t in
  let bob := cat_bob t in
  let bodyY := groundY - [# 80] + bob in
  (* Shadow *)
  set_fillStyle (css "rgba(0,0,0,0.15)");;
  beginPath;;
  ellipse (x + [# 120]) (groundY + [# 6]) [# 80] [# 16] [# 0] [# 0] (js_PI * [# 2]);;
  fill;;
  (* Tail *)
  set_strokeStyle (css "#333");;
  set_lineWidth [# 14];;
  set_lineCap "round";;
  beginPath;;
  moveTo (x + [# 40]) (bodyY - [# 10]);;
  quadraticCurveTo (x - [# 20]) (bodyY - [# 50] - step * [# 8])
                   (x + [# 10]) (bodyY - [# 70] - step * [# 4]);;
  stroke;;
  (* Body *)
  set_fillStyle (css "#444");;
  beginPath;;
  ellipse (x + [# 110]) bodyY [# 90] [# 48] [# 0] [# 0] (js_PI * [# 2]);;
  fill;;
  (* Legs *)
  set_strokeStyle (css "#3a3a3a");;
  set_lineWidth [# 10];;
  set_lineCap "round";;
  let legY := groundY - [# 8] in
  for_each (seq 0 4) (fun i =>
    let phase := if Nat.eqb (Nat.modulo i 2) 0 then step else js_neg step in
    let lx := x + [# 70] + nat_num i * [# 22] in
    beginPath;;
    moveTo lx (bodyY + [# 20]);;
    lineTo (lx + phase * [# 12]) legY;;
    stroke);;
  (* Head *)
  let headX := x + [# 180] in
  let headY := bodyY - [# 10] in
  set_fillStyle (css "#4b4b4b");;
  beginPath;;
  ellipse headX headY [# 34] [# 30] [# 0] [# 0] (js_PI * [# 2]);;
  fill;;
  (* Ears *)
  set_fillStyle (css "#3e3e3e");;
  beginPath;;
  moveTo (headX - [# 18]) (headY - [# 20]);;
  lineTo (headX - [# 6]) (headY - [# 40]);;
  lineTo (headX + [# 2]) (headY - [# 18]);;
  closePath;;
  fill;;
  beginPath;;
  moveTo (headX + [# 10]) (headY - [# 18]);;
  lineTo (headX + [# 24]) (headY - [# 36]);;
  lineTo (headX + [# 26]) (headY - [# 14]);;
  closePath;;
  fill;;
  (* Eye *)
  set_fillStyle (css "#ffd15c");;
  beginPath;;
  arc (headX + [# 10]) (headY - [# 4]) [# 4] [# 0] (js_PI * [# 2]);;
  fill;;
  set_fillStyle (css "#222");;
  beginPath;;
  arc (headX + [# 10]) (headY - [# 4]) [# 2] [# 0] (js_PI * [# 2]);;
  fill;;
  (* Nose *)
  set_fillStyle (css "#e67d7d");;
  beginPath;;
  arc (headX - [# 5]) (headY + [# 4]) [# 3] [# 0] (js_PI * [# 2]);;
  fill;;
  (* Whiskers *)
  set_strokeStyle (css "#ddd");;
  set_lineWidth [# 1.5];;
  for_each [-1; 0; 1] (fun i =>
    beginPath;;
    moveTo (headX - [# 8]) (headY + [# 4] + Z_num i * [# 4]);;
    lineTo (headX - [# 32]) (headY + [# 2] + Z_num i * [# 5]);;
    stroke).

(** The body of [render] once [elapsed] is known: one full frame. *)
Definition renderFrame (elapsed W H : num) (trees : list (Tree.t num)) : M unit :=
  (* Background sky gradient *)
  let sky := linear_gradient [# 0] [# 0] [# 0] H [([# 0], "#a8d0ff"%string); ([# 1], "#e8f6ff"%string)] in
  set_fillStyle sky;;
  fillRect [# 0] [# 0] W H;;
  drawHills W H elapsed;;
  drawForest W H trees elapsed;;
  (* Ground *)
  let grd := linear_gradient [# 0] (H * [# 0.7]) [# 0] H
               [([# 0], "#5aa35a"%string); ([# 1], "#2e6b2e"%string)] in
  set_fillStyle grd;;
  fillRect [# 0] (H * [# 0.72]) W (H * [# 0.28]);;
  drawCat elapsed W H;;
  drawGrass W H elapsed.

(** The drawing operations a frame emits on a context [c]. *)
Definition frame_ops (elapsed W H : num) (trees : list (Tree.t num)) (c : ctx) : list paint :=
  emitted (renderFrame elapsed W H trees c).
End Draw.

(** ** The page: recording controller and duration input *)

Module Page.

Inductive RecordingState := idle | recording | processing | done | error.

(** A [handleRecord] call that has reached its first [await]: the recorder
    runs for [wait(ms)], or has been stopped and waits for [onstop]. *)
Inductive session :=
| Waiting (mimeType : string) (ms : Q)
| Stopping (mimeType : string).

Record page := Mk {
  recState : RecordingState;
  videoUrl : option string;
  errorMsg : option string;
  durationSec : Q;
  running : bool;                 (** [animRef.current.running] *)
  sessions : list session
}.

Definition init : page := Mk idle None None 10 true [].

(** What the browser offers. *)
Record env := Env {
  has_canvas : bool;              (** [canvasRef.current] is set *)
  has_captureStream : bool;       (** ["captureStream" in canvas] *)
  has_MediaRecorder : bool;       (** [window.MediaRecorder] *)
  isTypeSupported : string -> bool
}.

Definition mimeTypes : list string :=
  ["video/webm;codecs=vp9,opus"; "video/webm;codecs=vp8,opus"; "video/webm"]%string.

Fixpoint select_mime (e : env) (l : list string) : string :=
  match l with
  | [] => ""%string
  | mt :: l' => if has_MediaRecorder e && isTypeSupported e mt then mt else select_mime e l'
  end.

Definition set_recState s p := Mk s (videoUrl p) (errorMsg p) (durationSec p) (running p) (sessions p).
Definition set_videoUrl u p := Mk (recState p) u (errorMsg p) (durationSec p) (running p) (sessions p).
Definition set_errorMsg m p := Mk (recState p) (videoUrl p) m (durationSec p) (running p) (sessions p).
Definition set_durationSec d p := Mk (recState p) (videoUrl p) (errorMsg p) d (running p) (sessions p).
Definition set_sessions l p := Mk (recState p) (videoUrl p) (errorMsg p) (durationSec p) (running p) l.

(** [handleRecord] up to its first [await]. *)
Definition handleRecord (e : env) (p : page) : page :=
  let p := set_videoUrl None (set_errorMsg None p) in
  if negb (has_canvas e) then p
  else if negb (has_captureStream e) then
    set_recState error (set_errorMsg (Some "Canvas captureStream not supported in this browser."%string) p)
  else
    let mimeType := select_mime e mimeTypes in
    if String.eqb mimeType "" then
      set_recState error
        (set_errorMsg (Some "MediaRecorder with WebM is not supported by this browser."%string) p)
    else
      set_sessions (sessions p ++ [Waiting mimeType (durationSec p * 1000)])
        (set_recState recording p).

(** [Math.max(1, Math.min(60, v))]. *)
Definition js_min (a b : Q) : Q := if Qle_bool a b then a else b.
Definition js_max (a b : Q) : Q := if Qle_bool a b then b else a.
Definition clamp_duration (v : Q) : Q := js_max 1 (js_min 60 v).

(** The button is [disabled] while recording or processing. *)
Definition button_enabled (s : RecordingState) : bool :=
  match s with recording | processing => false | _ => true end.

(** [e?.error?.message || "Recording error"]. *)
Definition error_text (m : option string) : string :=
  match m with
  | Some s => if String.eqb s "" then "Recording error"%string else s
  | None => "Recording error"%string
  end.

Inductive event :=
| Click (e : env)                       (** the Record button *)
| Input (v : Q)                         (** [Number(e.target.value)] of the duration input *)
| RecorderError (message : option string)
| TimerEnd                              (** [await wait(durationSec * 1000)] returns *)
| RecorderStopped (url : string).       (** [onstop]; [url] from [URL.createObjectURL] *)

Inductive step : event -> page -> page -> Prop :=
| step_click e p :
    button_enabled (recState p) = true ->
    step (Click e) p (handleRecord e p)
| step_input v p :
    step (Input v) p (set_durationSec (clamp_duration v) p)
| step_error msg p l1 s l2 :
    sessions p = l1 ++ s :: l2 ->
    step (RecorderError msg) p (set_recState error (set_errorMsg (Some (error_text msg)) p))
| step_timer p l1 mt ms l2 :
    sessions p = l1 ++ Waiting mt ms :: l2 ->
    step TimerEnd p (set_recState processing (set_sessions (l1 ++ Stopping mt :: l2) p))
| step_stopped url p l1 mt l2 :
    sessions p = l1 ++ Stopping mt :: l2 ->
    step (RecorderStopped url) p (set_recState done (set_videoUrl (Some url) (set_sessions (l1 ++ l2) p))).

Inductive reachable : page -> Prop :=
| reach_init : reachable init
| reach_step ev p p' : reachable p -> step ev p p' -> reachable p'.

Definition is_error_event (ev : event) : bool :=
  match ev with RecorderError _ => true | _ => false end.

(** States reached without any recorder error event. *)
Inductive reachable_no_error : page -> Prop :=
| rne_init : reachable_no_error init
| rne_step ev p p' :
    reachable_no_error p -> is_error_event ev = false -> step ev p p' -> reachable_no_error p'.

(** The status chain as the specification describes it:
    idle -> recording -> processing -> (done | error), done and error
    restarting at recording. *)
Definition chain_edge (s s' : RecordingState) : bool :=
  match s, s' with
  | idle, idle | recording, recording | processing, processing
  | done, done | error, error => true
  | idle, recording | recording, processing
  | processing, done | processing, error
  | done, recording | error, recording => true
  | _, _ => false
  end.

(** The status moves of [handleRecord] and its recorder callbacks: a click
    from a resting status starts a recording or fails at once, and the
    recorder's [onerror] may end a recording or its processing. *)
Definition status_edge (s s' : RecordingState) : bool :=
  match s, s' with
  | idle, idle | recording, recording | processing, processing
  | done, done => true
  | (idle | done | error), (recording | error) => true
  | recording, (processing | error) => true
  | processing, (done | error) => true
  | _, _ => false
  end.

(** No recorder is live and the button is enabled, or one [handleRecord]
    call waits for its timer while recording, or for [onstop] while
    processing. *)
Definition session_inv (p : page) : Prop :=
  (sessions p = [] /\ button_enabled (recState p) = true) \/
  (exists mt ms, sessions p = [Waiting mt ms] /\ recState p = recording) \/
  (exists mt, sessions p = [Stopping mt] /\ recState p = processing).

(** A browser with a canvas but without [canvas.captureStream]. *)
Definition env_no_capture : env := Env true false true (fun _ => true).

(** A browser with [captureStream] and a recorder that accepts WebM. *)
Definition env_webm : env := Env true true true (fun _ => true).

End Page.

(** ** The scene of the page

    [generateTrees(24, 1280, 720)] as the page calls it, evaluated in binary64
    and in exact arithmetic. *)

Definition no_tree {num} `{JsNum num} : Tree.t num :=
  Tree.mk [# 0]%js [# 0]%js [# 0]%js [# 0]%js L0 [# 0]%js.

Definition page_trees_F64 : list (Tree.t float) := generateTrees 24 [# 1280]%js [# 720]%js.
Definition page_trees_Q : list (Tree.t Q) := generateTrees 24 1280%Q 720%Q.

(** ** Closed forms of the drawing loops

    The loop bodies of [drawBlob], [drawHills], [drawForest] and [drawGrass]
    as functions of the loop index, which the proofs compare the emitted
    operations against. *)

Section DrawViews.
Context {num : Type} `{JsNum num} `{JsMath num}.
Local Open Scope js_scope.

(** The point of [drawBlob]'s loop at index [i]. *)
Definition blob_point (x y w h : num) (i : nat) : num * num :=
  let a := (nat_num i / [# 16]) * js_PI * [# 2] in
  let rx := js_cos a * w * ([# 0.45] + [# 0.1] * noise2D (js_cos a) (js_sin a)) in
  let ry := js_sin a * h * ([# 0.45] + [# 0.1] * noise2D (js_sin a) (js_cos a)) in
  (x + w * [# 0.5] + rx, y + h * [# 0.5] + ry).

(** The segment [drawBlob] adds at index [i]: [moveTo] first, then [lineTo]. *)
Definition blob_seg (x y w h : num) (i : nat) : segment :=
  let p := blob_point x y w h i in
  if Nat.eqb i 0 then MoveTo (fst p) (snd p) else LineTo (fst p) (snd p).

(** [y] of [drawHills]'s inner loop for hill [i] at abscissa [x]. *)
Definition hill_y (t yBase : num) (i : nat) (x : num) : num :=
  yBase + [# 30] * js_sin ((x + nat_num i * [# 200]) * [# 0.004] + t * ([# 0.05] + nat_num i * [# 0.02])).

(** The two operations [drawForest] paints for a tree: the trunk and the
    canopy blob. *)
Definition tree_paints (W t : num) (tr : Tree.t num) : list paint :=
  let px := tree_px W t tr in
  let canopyW := Tree.width tr * [# 6] in
  let canopyH := Tree.height tr * [# 0.8] in
  [PFillRect px (Tree.baseY tr - Tree.height tr) (Tree.width tr) (Tree.height tr)
     (Hsl (Tree.hue tr) [# 25] ([# 30] + layer_num (Tree.layer tr) * [# 5]));
   PFill (map (blob_seg (px - canopyW * [# 0.3]) (Tree.baseY tr - Tree.height tr - canopyH * [# 0.5])
                        canopyW canopyH) (seq 0 17) ++ [ClosePath])
     (Hsl (Tree.hue tr) [# 35] ([# 28] + layer_num (Tree.layer tr) * [# 8]))].

(** The stroke [drawGrass] makes for blade [i], with the line cap [k] the
    context holds. *)
Definition grass_blade (W H t : num) (k : string) (i : nat) : paint :=
  let x := ((nat_num i / [# 140]) * W + (js_sin ((t + nat_num i) * [# 0.7]) * [# 20])) % (W) in
  let h := [# 30] + [# 20] * js_sin (nat_num i * [# 0.5] + t * [# 1.2]) in
  let sway := js_sin (t * [# 2] + nat_num i) * [# 8] in
  PStroke [MoveTo x (H * [# 0.98]);
           QuadTo (x + sway) (H * [# 0.98] - h * [# 0.6]) (x + sway * [# 1.6]) (H * [# 0.98] - h)]
          (css "#2a5f2a") [# 2] k.

End DrawViews.

Section TreeViews.
Context {num : Type} {JN : JsNum num}.

(** Membership in the parallax layer of index [k]. *)
Definition on_layer (k : Z) (tr : Tree.t num) : bool := Z.eqb (layer_index (Tree.layer tr)) k.

End TreeViews.

(** The number of abscissas [x = 0, 8, 16, ...] with [x <= W]: the points
    [drawHills]'s inner loop visits. *)
Definition hill_count (W : R) : nat :=
  if Rle_dec 0%R W then S (Z.to_nat (Int_part (W / 8)%R)) else 0%nat.

(** A stroke of the shape [drawGrass] makes, with its blade height [h] in
    [10, 50], its sway in [-8, 8] and, for a positive width, its root
    inside [(-W, W)]. *)
Section GrassView.
Local Open Scope R_scope.

Definition grass_ok (W H : R) (k : string) (op : @paint R) : Prop :=
  exists x h sway,
    op = PStroke [MoveTo x (H * [# 0.98])%js;
                  QuadTo (x + sway) (H * [# 0.98] - h * [# 0.6])%js
                         (x + sway * [# 1.6])%js (H * [# 0.98] - h)%js]
                 (css "#2a5f2a") [# 2]%js k /\
    (10 <= h <= 50)%R /\ (-8 <= sway <= 8)%R /\ (0 < W -> - W < x < W)%R.
End GrassView.

Section TreeFieldViews.
Local Open Scope Q_scope.

(** The ranges [generateTrees]'s loop body puts each field in, in exact
    arithmetic; [c] is the layer index. *)
Definition tree_fields (W H : Q) (t : Tree.t Q) : Prop :=
  let c := inject_Z (layer_index (Tree.layer t)) in
  (0 < W -> - (W * 0.5) <= Tree.x t < W * 1.5) /\
  (0 < H -> 0 < Tree.height t /\
            Tree.height t * 0.06 <= Tree.width t < Tree.height t * 0.1) /\
  115 + c * 10 <= Tree.hue t < 125 + c * 10.

End TreeFieldViews.

(** What the page shows together: a video link only once recording is done,
    an error message only in the error state, neither while a recorder
    runs. *)
Definition display_inv (p : Page.page) : Prop :=
  (Page.videoUrl p <> None -> Page.recState p = Page.done /\ Page.sessions p = []) /\
  (Page.errorMsg p <> None -> Page.recState p = Page.error /\ Page.sessions p = []).

(** ** The animation loop

    [render] of the page's effect over real numbers: [animRef.current] as a
    record, the canvas context threaded from frame to frame. *)

Module Render.
Local Open Scope R_scope.

(** [animRef.current]: [width] and [height] are never changed, [lastTime] is
    never read. *)
Record anim := Anim { startTime : R; lastTime : R; running : bool; width : R; height : R }.

Definition anim_init : anim := Anim 0 0 false 1280 720.

(** The effect sets [running] before its first [requestAnimationFrame]; its
    cleanup clears it. *)
Definition mount (a : anim) : anim := Anim (startTime a) (lastTime a) true (width a) (height a).
Definition cleanup (a : anim) : anim := Anim (startTime a) (lastTime a) false (width a) (height a).

(** One call of [render(t)]: [None] when it returns at once, without drawing
    and without requesting a further frame. *)
Definition render (trees : list (Tree.t R)) (t : R) (a : anim) (c : @ctx R) :
  anim * option (@result R unit) :=
  if negb (running a) then (a, None) else
  let a := if Req_EM_T (startTime a) 0
           then Anim t (lastTime a) (running a) (width a) (height a) else a in
  let elapsed := ((t - startTime a) / [# 1000])%js in
  (a, Some (renderFrame elapsed (width a) (height a) trees c)).

(** The frame callbacks the browser makes at timestamps [ts], each on the
    context the previous frame left; the chain ends when [render] does not
    request another frame. *)
Fixpoint render_loop (trees : list (Tree.t R)) (a : anim) (c : @ctx R) (ts : list R) :
  list (list (@paint R)) :=
  match ts with
  | [] => []
  | t :: ts' =>
      match render trees t a c with
      | (_, None) => []
      | (a', Some r) => emitted r :: render_loop trees a' (final r) ts'
      end
  end.
End Render.

(** * Proofs *)

(** ** Frames depend on no state of the context

    A mask says which parts of the context two runs agree on.  [respects m m' p]:
    started on contexts agreeing on [m], [p] returns equal values, emits equal
    drawing operations and ends on contexts agreeing on [m']. *)

Module Agree.
Record mask := Mask { mf : bool; ms : bool; mw : bool; mc : bool; mp : bool }.

Definition none := Mask false false false false false.
Definition all := Mask true true true true true.
Definition with_f m := Mask true (ms m) (mw m) (mc m) (mp m).
Definition with_s m := Mask (mf m) true (mw m) (mc m) (mp m).
Definition with_w m := Mask (mf m) (ms m) true (mc m) (mp m).
Definition with_c m := Mask (mf m) (ms m) (mw m) true (mp m).
Definition with_p m := Mask (mf m) (ms m) (mw m) (mc m) true.
Definition f_p := Mask true false false false true.

Definition le (a b : mask) : bool :=
  implb (mf a) (mf b) && implb (ms a) (ms b) && implb (mw a) (mw b)
  && implb (mc a) (mc b) && implb (mp a) (mp b).

Section Respects.
Context {num : Type}.

Definition agree (m : mask) (c1 c2 : @ctx num) : Prop :=
  (mf m = true -> fillStyle c1 = fillStyle c2) /\
  (ms m = true -> strokeStyle c1 = strokeStyle c2) /\
  (mw m = true -> lineWidth c1 = lineWidth c2) /\
  (mc m = true -> lineCap c1 = lineCap c2) /\
  (mp m = true -> path c1 = path c2).

Definition respects {A} (m m' : mask) (p : @M num A) : Prop :=
  forall c1 c2, agree m c1 c2 ->
    value (p c1) = value (p c2) /\ emitted (p c1) = emitted (p c2) /\
    agree m' (final (p c1)) (final (p c2)).

Lemma agree_none c1 c2 : agree none c1 c2.
Proof. repeat split; discriminate. Qed.

Lemma agree_le a b c1 c2 : le a b = true -> agree b c1 c2 -> agree a c1 c2.
Proof.
  destruct a as [[] [] [] [] []], b as [[] [] [] [] []]; simpl; try discriminate;
    intros _ (? & ? & ? & ? & ?); repeat split; auto.
Qed.

Lemma respects_weaken {A} m m1 m2 (p : M A) :
  respects m m1 p -> le m2 m1 = true -> respects m m2 p.
Proof.
  intros Hp Hle c1 c2 Hag. destruct (Hp c1 c2 Hag) as (? & ? & ?).
  eauto using agree_le.
Qed.

Lemma respects_ret {A} m (a : A) : respects m m (ret a).
Proof. intros c1 c2 Hag. simpl. auto. Qed.

Lemma respects_bind {A B} m1 m2 m3 (p : M A) (k : A -> M B) :
  respects m1 m2 p -> (forall a, respects m2 m3 (k a)) -> respects m1 m3 (bind p k).
Proof.
  intros Hp Hk c1 c2 Hag. unfold bind; simpl.
  destruct (Hp c1 c2 Hag) as (Hv & He & Hag').
  rewrite Hv. destruct (Hk (value (p c2)) _ _ Hag') as (Hv' & He' & Hag'').
  rewrite He, Hv', He'. auto.
Qed.

Lemma respects_for_each {B} m (l : list B) body :
  (forall b, respects m m (body b)) -> respects m m (for_each l body).
Proof.
  intros Hb. induction l as [|b l IH]; simpl.
  - apply respects_ret.
  - eapply respects_bind; eauto.
Qed.

Ltac agree_tac :=
  intros c1 c2 (Hf & Hs & Hw & Hc & Hp); simpl;
  repeat split; simpl; intros; auto; try congruence.

Lemma respects_fillStyle m s : respects m (with_f m) (set_fillStyle s).
Proof. agree_tac. Qed.
Lemma respects_strokeStyle m s : respects m (with_s m) (set_strokeStyle s).
Proof. agree_tac. Qed.
Lemma respects_lineWidth m w : respects m (with_w m) (set_lineWidth w).
Proof. agree_tac. Qed.
Lemma respects_lineCap m k : respects m (with_c m) (set_lineCap k).
Proof. agree_tac. Qed.
Lemma respects_beginPath m : respects m (with_p m) beginPath.
Proof. agree_tac. Qed.
Lemma respects_add_segment m sg : respects m m (add_segment sg).
Proof. agree_tac. rewrite Hp; auto. Qed.

Lemma respects_fill m : mf m = true -> mp m = true -> respects m m fill.
Proof. intros F P. agree_tac. rewrite Hf, Hp; auto. Qed.
Lemma respects_stroke m :
  ms m = true -> mw m = true -> mc m = true -> mp m = true -> respects m m stroke.
Proof. intros S W C P. agree_tac. rewrite Hs, Hw, Hc, Hp; auto. Qed.
Lemma respects_fillRect m x y w h : mf m = true -> respects m m (fillRect x y w h).
Proof. intros F. agree_tac. rewrite Hf; auto. Qed.
End Respects.

Lemma respects_strengthen {num A} m m0 m' (p : @M num A) :
  le m m0 = true -> respects m m' p -> respects m0 m' p.
Proof. intros Hle Hp c1 c2 Hag. apply Hp. eauto using agree_le. Qed.

(** The search: split binds, resolve primitives, keep loop invariants
    (checked on the concrete masks by computation); [ext] handles calls
    to drawing functions proved earlier. *)
Ltac resp_with ext :=
  match goal with
  | |- respects _ _ (bind _ _) =>
      eapply respects_bind; [resp_with ext | intros; resp_with ext]
  | |- respects _ _ (for_each _ _) =>
      apply respects_for_each; intros; eapply respects_weaken; [resp_with ext | reflexivity]
  | |- respects _ _ (if ?b then _ else _) => destruct b; resp_with ext
  | |- respects _ _ (set_fillStyle _) => apply respects_fillStyle
  | |- respects _ _ (set_strokeStyle _) => apply respects_strokeStyle
  | |- respects _ _ (set_lineWidth _) => apply respects_lineWidth
  | |- respects _ _ (set_lineCap _) => apply respects_lineCap
  | |- respects _ _ beginPath => apply respects_beginPath
  | |- respects _ _ fill => apply respects_fill; reflexivity
  | |- respects _ _ stroke => apply respects_stroke; reflexivity
  | |- respects _ _ (fillRect _ _ _ _) => apply respects_fillRect; reflexivity
  | |- respects _ _ (ret _) => apply respects_ret
  | |- respects _ _ (moveTo _ _) => apply respects_add_segment
  | |- respects _ _ (lineTo _ _) => apply respects_add_segment
  | |- respects _ _ (quadraticCurveTo _ _ _ _) => apply respects_add_segment
  | |- respects _ _ (ellipse _ _ _ _ _ _ _) => apply respects_add_segment
  | |- respects _ _ (arc _ _ _ _ _) => apply respects_add_segment
  | |- respects _ _ closePath => apply respects_add_segment
  | |- respects _ _ (let _ := _ in _) => cbv zeta; resp_with ext
  | |- _ => ext
  end.

Section Frame.
Context {num : Type} {JN : JsNum num} {JM : JsMath num}.

Lemma hill_line_respects m fuel (W H t yBase : num) i x :
  respects m m (hill_line fuel W H t yBase i x).
Proof.
  revert x; induction fuel as [|fuel IH]; intros x; simpl.
  - apply respects_ret.
  - destruct (js_leb x W); [eapply respects_bind; [apply respects_add_segment | intros; apply IH]
                           | apply respects_ret].
Qed.

Lemma drawBlob_respects (x y w h : num) : respects f_p f_p (drawBlob x y w h).
Proof. unfold drawBlob. resp_with fail. Qed.

Ltac draw_ext :=
  match goal with
  | |- respects _ _ (hill_line _ _ _ _ _ _ _) => apply hill_line_respects
  | |- respects _ _ (drawBlob _ _ _ _) =>
      eapply respects_strengthen; [| apply drawBlob_respects]; reflexivity
  end.

Lemma drawHills_respects (W H t : num) : respects (with_f none) f_p (drawHills W H t).
Proof. unfold drawHills; cbn [seq for_each]. resp_with ltac:(idtac; draw_ext). Qed.

Lemma drawForest_respects (W H t : num) trees : respects f_p f_p (drawForest W H trees t).
Proof. unfold drawForest. resp_with ltac:(idtac; draw_ext). Qed.

Lemma drawCat_respects (t W H : num) : respects f_p all (drawCat t W H).
Proof. unfold drawCat. resp_with ltac:(idtac; draw_ext). Qed.

Lemma drawGrass_respects (W H t : num) : respects all all (drawGrass W H t).
Proof. unfold drawGrass. resp_with ltac:(idtac; draw_ext). Qed.

Lemma renderFrame_respects (e W H : num) trees : respects none all (renderFrame e W H trees).
Proof.
  unfold renderFrame.
  resp_with ltac:(idtac; first
    [ apply drawHills_respects | apply drawForest_respects
    | apply drawCat_respects | apply drawGrass_respects ]).
Qed.
End Frame.
End Agree.

(** ** Tree generation *)

Section TreeFacts.
Context {num : Type} {JN : JsNum num}.

Definition le_layer (a b : Tree.t num) : Prop :=
  layer_index (Tree.layer a) <= layer_index (Tree.layer b).

Lemma sort_insert_HdRel (a b : Tree.t num) l :
  HdRel le_layer b l -> le_layer b a -> HdRel le_layer b (sort_insert layer_cmp a l).
Proof.
  intros Hd Hba. destruct l as [|c l]; simpl.
  - constructor; exact Hba.
  - destruct (layer_cmp c a <=? 0); constructor; [inversion Hd; assumption | exact Hba].
Qed.

Lemma sort_insert_sorted (a : Tree.t num) l :
  Sorted le_layer l -> Sorted le_layer (sort_insert layer_cmp a l).
Proof.
  induction l as [|b l IH]; intros Hs; simpl.
  - repeat constructor.
  - inversion Hs as [|? ? Hl Hd]; subst.
    unfold layer_cmp, le_layer in *.
    destruct (layer_index (Tree.layer b) - layer_index (Tree.layer a) <=? 0) eqn:E.
    + apply Z.leb_le in E. constructor; [apply IH, Hl|].
      apply sort_insert_HdRel; [exact Hd | unfold le_layer; lia].
    + apply Z.leb_gt in E. constructor; [constructor; assumption|].
      constructor. unfold le_layer; lia.
Qed.

Lemma js_sort_sorted l : Sorted le_layer (js_sort layer_cmp l).
Proof.
  unfold js_sort.
  assert (Hgen : forall acc, Sorted le_layer acc ->
            Sorted le_layer (fold_left (fun acc a => sort_insert layer_cmp a acc) l acc)).
  { induction l as [|a l IH]; intros acc Hacc; simpl; auto using sort_insert_sorted. }
  apply Hgen; constructor.
Qed.

Lemma sort_insert_perm {A} (cmp : A -> A -> Z) a l : Permutation (sort_insert cmp a l) (a :: l).
Proof.
  induction l as [|b l IH]; simpl; [reflexivity|].
  destruct (cmp b a <=? 0); [|reflexivity].
  rewrite IH. apply perm_swap.
Qed.

Lemma js_sort_perm {A} (cmp : A -> A -> Z) l : Permutation (js_sort cmp l) l.
Proof.
  unfold js_sort.
  assert (Hgen : forall acc, Permutation (fold_left (fun acc a => sort_insert cmp a acc) l acc)
                                         (l ++ acc)).
  { induction l as [|a l IH]; intros acc; simpl; [reflexivity|].
    rewrite IH, sort_insert_perm. symmetry. apply Permutation_middle. }
  rewrite Hgen, app_nil_r. reflexivity.
Qed.

Lemma push_trees_made (W H : num) i count a t :
  In t (push_trees W H i count a) -> exists j b, t = fst (make_tree W H j b).
Proof.
  revert i a; induction count as [|count IH]; intros i a Hin; cbn [push_trees] in Hin; [contradiction|].
  destruct (make_tree W H i a) as [tr a'] eqn:E. destruct Hin as [<-|Hin].
  - exists i, a. rewrite E. reflexivity.
  - eapply IH; exact Hin.
Qed.

Lemma generateTrees_made count (W H : num) t :
  In t (generateTrees count W H) -> exists j b, t = fst (make_tree W H j b).
Proof.
  unfold generateTrees. intros Hin.
  apply (Permutation_in _ (js_sort_perm _ _)) in Hin.
  eapply push_trees_made; exact Hin.
Qed.
End TreeFacts.

(** ** The generator *)

Lemma mulberry32_step_word a : 0 <= snd (mulberry32_step a) < two32.
Proof. unfold mulberry32_step. simpl. unfold ToUint32. apply Z.mod_pos_bound. reflexivity. Qed.


Lemma rng_Q_range a : (0 <= fst (@rng Q _ a) < 1)%Q.
Proof.
  unfold rng. pose proof (mulberry32_step_word a) as Hw.
  destruct (mulberry32_step a) as [a' w]. simpl in *. unfold two32 in Hw.
  split.
  - apply Qle_shift_div_l; [reflexivity|]. unfold Qle; simpl; lia.
  - apply Qlt_shift_div_r; [reflexivity|]. unfold Qlt; simpl; lia.
Qed.

Lemma rng_state {num} {JN : JsNum num} a : snd (@rng num JN a) = fst (mulberry32_step a).
Proof. unfold rng. destruct (mulberry32_step a); reflexivity. Qed.

(** ** The remainder [%] on exact rationals *)

Section QRem.
Local Open Scope Q_scope.

Lemma inject_Z_sub1 z : inject_Z (z - 1) == inject_Z z - 1.
Proof. unfold Z.sub. rewrite inject_Z_plus. reflexivity. Qed.

Lemma Qceiling_unique x z : inject_Z z - 1 < x -> x <= inject_Z z -> Qceiling x = z.
Proof.
  intros H1 H2. pose proof (Qceiling_lt x) as H3. pose proof (Qle_ceiling x) as H4.
  rewrite inject_Z_sub1 in H3.
  assert (Qceiling x < z + 1)%Z.
  { rewrite Zlt_Qlt, inject_Z_plus. change (inject_Z 1) with 1. lra. }
  assert (z < Qceiling x + 1)%Z.
  { rewrite Zlt_Qlt, inject_Z_plus. change (inject_Z 1) with 1. lra. }
  lia.
Qed.

Lemma Qfloor_unique x z : inject_Z z <= x -> x < inject_Z z + 1 -> Qfloor x = z.
Proof.
  intros H1 H2. pose proof (Qfloor_le x) as H3. pose proof (Qlt_floor x) as H4.
  rewrite inject_Z_plus in H4. change (inject_Z 1) with 1 in H4.
  assert (Qfloor x < z + 1)%Z.
  { rewrite Zlt_Qlt, inject_Z_plus. change (inject_Z 1) with 1. lra. }
  assert (z < Qfloor x + 1)%Z.
  { rewrite Zlt_Qlt, inject_Z_plus. change (inject_Z 1) with 1. lra. }
  lia.
Qed.

Lemma Qtrunc_comp q q' : q == q' -> Qtrunc q = Qtrunc q'.
Proof.
  intros E. unfold Qtrunc.
  destruct (Qle_bool 0 q) eqn:B1, (Qle_bool 0 q') eqn:B2.
  - apply Qfloor_comp, E.
  - apply Qle_bool_iff in B1. rewrite E in B1. apply Qle_bool_iff in B1. congruence.
  - apply Qle_bool_iff in B2. rewrite <- E in B2. apply Qle_bool_iff in B2. congruence.
  - apply Qceiling_comp, E.
Qed.

Lemma Qtrunc_Z z : Qtrunc (inject_Z z) = z.
Proof. unfold Qtrunc. destruct (Qle_bool 0 (inject_Z z)); auto using Qfloor_Z, Qceiling_Z. Qed.

Lemma Qtrunc_sub1 q : q <= 0 -> Qtrunc (q - 1) = (Qtrunc q - 1)%Z.
Proof.
  intros Hq. unfold Qtrunc.
  assert (Hneg : Qle_bool 0 (q - 1) = false).
  { apply not_true_iff_false. rewrite Qle_bool_iff. lra. }
  rewrite Hneg.
  destruct (Qle_bool 0 q) eqn:B.
  - apply Qle_bool_iff in B.
    rewrite (Qfloor_unique q 0) by (change (inject_Z 0) with 0; lra).
    apply Qceiling_unique; change (inject_Z (0 - 1)) with (-1); lra.
  - apply Qceiling_unique; rewrite inject_Z_sub1;
      [pose proof (Qceiling_lt q) as H3; rewrite inject_Z_sub1 in H3
      | pose proof (Qle_ceiling q)]; lra.
Qed.

Lemma Qjs_rem_comp n n' d d' : n == n' -> d == d' -> Qjs_rem n d == Qjs_rem n' d'.
Proof.
  intros En Ed. unfold Qjs_rem.
  rewrite (Qtrunc_comp (n / d) (n' / d')) by (rewrite En, Ed; reflexivity).
  rewrite En, Ed. reflexivity.
Qed.

(** Once the dividend is not positive, subtracting the divisor does not
    change the remainder. *)
Lemma Qjs_rem_sub_divisor a m : 0 < m -> a <= 0 -> Qjs_rem (a - m) m == Qjs_rem a m.
Proof.
  intros Hm Ha. unfold Qjs_rem.
  assert (Hd : (a - m) / m == a / m - 1) by (field; lra).
  assert (Ham : a / m <= 0).
  { apply Qle_shift_div_r; [exact Hm|]. lra. }
  rewrite (Qtrunc_comp _ _ Hd), (Qtrunc_sub1 _ Ham), inject_Z_sub1. ring.
Qed.

Lemma Qtrunc_add1 q : 0 <= q -> Qtrunc (q + 1) = (Qtrunc q + 1)%Z.
Proof.
  intros Hq. unfold Qtrunc.
  assert (Hpos : Qle_bool 0 (q + 1) = true) by (apply Qle_bool_iff; lra).
  assert (Hq' : Qle_bool 0 q = true) by (apply Qle_bool_iff; exact Hq).
  rewrite Hpos, Hq'.
  pose proof (Qfloor_le q). pose proof (Qlt_floor q).
  apply Qfloor_unique; rewrite inject_Z_plus; change (inject_Z 1) with 1;
    [|rewrite inject_Z_plus in *; change (inject_Z 1) with 1 in *]; lra.
Qed.

(** Once the dividend is not negative, adding the divisor does not change
    the remainder. *)
Lemma Qjs_rem_add_divisor a m : 0 < m -> 0 <= a -> Qjs_rem (a + m) m == Qjs_rem a m.
Proof.
  intros Hm Ha. unfold Qjs_rem.
  assert (Hd : (a + m) / m == a / m + 1) by (field; lra).
  assert (Ham : 0 <= a / m).
  { apply Qle_shift_div_l; [exact Hm|]. lra. }
  rewrite (Qtrunc_comp _ _ Hd), (Qtrunc_add1 _ Ham), inject_Z_plus.
  change (inject_Z 1) with 1. ring.
Qed.
End QRem.

(** ** Bounds of one generated tree, in exact arithmetic *)

Section TreeBounds.
Local Open Scope Q_scope.

Definition tree_bounds (H : Q) (t : Tree.t Q) : Prop :=
  let c := inject_Z (layer_index (Tree.layer t)) in
  H * (0.65 + c * 0.08) - 10 <= Tree.baseY t < H * (0.65 + c * 0.08) + 10 /\
  (0 < H -> H * (0.12 + c * 0.08) * 0.8 <= Tree.height t < H * (0.12 + c * 0.08) * 1.2).

Lemma rng_Q_range_eq a r a' : rng a = (r, a') -> 0 <= r < 1.
Proof. intros E. pose proof (rng_Q_range a) as Hr. rewrite E in Hr. exact Hr. Qed.

Lemma make_tree_bounds (W H : Q) j b : tree_bounds H (fst (make_tree W H j b)).
Proof.
  unfold make_tree.
  destruct (rng b) as [r1 b1] eqn:E1. destruct (rng b1) as [r2 b2] eqn:E2.
  destruct (rng b2) as [r3 b3] eqn:E3. destruct (rng b3) as [r4 b4] eqn:E4.
  destruct (rng b4) as [r5 b5] eqn:E5.
  apply rng_Q_range_eq in E2, E3.
  unfold tree_bounds; cbn [fst Tree.baseY Tree.height Tree.layer].
  unfold layer_num.
  set (c := inject_Z (layer_index (layer_of_nat (j mod 3)))).
  change (@js_lit Q _ c) with c.
  assert (Hc : 0 <= c <= 2) by (unfold c; destruct (layer_of_nat (j mod 3)); split; discriminate).
  cbn [js_add js_sub js_mul js_lit JsNum_Q].
  split; [lra|].
  intros HH.
  assert (HK : 0 < H * (0.12 + c * 0.08)) by nra.
  set (K := H * (0.12 + c * 0.08)) in *.
  split.
  - apply Qmult_le_l; [exact HK | lra].
  - apply Qmult_lt_l; [exact HK | lra].
Qed.

Lemma generateTrees_bounds count (W H : Q) t :
  In t (generateTrees count W H) -> tree_bounds H t.
Proof.
  intros Hin. destruct (generateTrees_made count W H t Hin) as (j & b & ->).
  apply make_tree_bounds.
Qed.
End TreeBounds.

(** ** Facts about the page controller *)

Module PageFacts.
Import Page.
Local Open Scope Q_scope.

Lemma app_cons_singleton {A} (l1 l2 : list A) x y :
  l1 ++ x :: l2 = [y] -> l1 = [] /\ x = y /\ l2 = [].
Proof.
  destruct l1 as [|a [|b l1]]; cbn; intros E; inversion E; subst; auto.
Qed.

Lemma app_cons_nil {A} (l1 l2 : list A) x : l1 ++ x :: l2 <> [].
Proof. destruct l1; discriminate. Qed.

Ltac app_inv :=
  match goal with
  | E : ?l = ?l1 ++ ?x :: ?l2, E' : ?l = [] |- _ =>
      rewrite E' in E; symmetry in E; exfalso; exact (app_cons_nil _ _ _ E)
  | E : ?l = ?l1 ++ ?x :: ?l2, E' : ?l = [?y] |- _ =>
      rewrite E' in E; symmetry in E;
      apply app_cons_singleton in E; destruct E as (-> & ? & ->); try discriminate
  end.

Lemma handleRecord_cases e p :
  (recState (handleRecord e p) = recState p /\ sessions (handleRecord e p) = sessions p) \/
  (recState (handleRecord e p) = error /\ sessions (handleRecord e p) = sessions p) \/
  (recState (handleRecord e p) = recording /\
   sessions (handleRecord e p) = sessions p ++ [Waiting (select_mime e mimeTypes) (durationSec p * 1000)]).
Proof.
  unfold handleRecord.
  destruct (has_canvas e), (has_captureStream e), (String.eqb _ _); cbn; auto.
Qed.

Lemma handleRecord_durationSec e p : durationSec (handleRecord e p) = durationSec p.
Proof.
  unfold handleRecord.
  destruct (has_canvas e), (has_captureStream e), (String.eqb _ _); reflexivity.
Qed.

Lemma session_inv_init : session_inv init.
Proof. left. split; reflexivity. Qed.

Lemma session_inv_step ev p p' :
  session_inv p -> is_error_event ev = false -> step ev p p' -> session_inv p'.
Proof.
  intros Hi He Hs. destruct Hs as [e p Hb | v p | msg p l1 s l2 E | p l1 mt ms l2 E | url p l1 mt l2 E].
  - destruct Hi as [[Hn _] | [(mt & ms & _ & Hr) | (mt & _ & Hr)]];
      [| rewrite Hr in Hb; discriminate | rewrite Hr in Hb; discriminate].
    destruct (handleRecord_cases e p) as [[R S] | [[R S] | [R S]]].
    + left. rewrite R, S. auto.
    + left. rewrite R, S. auto.
    + right. left. rewrite Hn in S. eauto.
  - exact Hi.
  - discriminate.
  - destruct Hi as [[Hn _] | [(mt' & ms' & Hn & Hr) | (mt' & Hn & Hr)]]; app_inv.
    right. right. exists mt. split; reflexivity.
  - destruct Hi as [[Hn _] | [(mt' & ms' & Hn & Hr) | (mt' & Hn & Hr)]]; app_inv.
    left. split; reflexivity.
Qed.

Lemma session_inv_reachable p : reachable_no_error p -> session_inv p.
Proof.
  induction 1 as [| ev p p' _ IH He Hs].
  - exact session_inv_init.
  - exact (session_inv_step ev p p' IH He Hs).
Qed.

Lemma status_edge_step ev p p' :
  session_inv p -> step ev p p' -> status_edge (recState p) (recState p') = true.
Proof.
  intros Hi Hs. destruct Hs as [e p Hb | v p | msg p l1 s l2 E | p l1 mt ms l2 E | url p l1 mt l2 E].
  - destruct (handleRecord_cases e p) as [[R _] | [[R _] | [R _]]]; rewrite R;
      destruct (recState p); try reflexivity; discriminate.
  - cbn. destruct (recState p); reflexivity.
  - cbn. destruct Hi as [[Hn _] | [(mt' & ms' & Hn & Hr) | (mt' & Hn & Hr)]];
      [app_inv | rewrite Hr; reflexivity | rewrite Hr; reflexivity].
  - cbn. destruct Hi as [[Hn _] | [(mt' & ms' & Hn & Hr) | (mt' & Hn & Hr)]]; app_inv.
    rewrite Hr. reflexivity.
  - cbn. destruct Hi as [[Hn _] | [(mt' & ms' & Hn & Hr) | (mt' & Hn & Hr)]]; app_inv.
    rewrite Hr. reflexivity.
Qed.

Lemma clamp_duration_range v : 1 <= clamp_duration v <= 60.
Proof.
  unfold clamp_duration, js_max, js_min.
  destruct (Qle_bool 60 v) eqn:E1; destruct (Qle_bool 1 _) eqn:E2;
    repeat match goal with
    | E : Qle_bool _ _ = true |- _ => apply Qle_bool_iff in E
    | E : Qle_bool _ _ = false |- _ =>
        apply Bool.not_true_iff_false in E; rewrite Qle_bool_iff in E; apply Qnot_le_lt in E
    end; lra.
Qed.

Definition waits_in_range (p : page) : Prop :=
  1 <= durationSec p <= 60 /\
  (forall mt ms, In (Waiting mt ms) (sessions p) -> 1000 <= ms <= 60000).

Lemma waits_in_range_step ev p p' : waits_in_range p -> step ev p p' -> waits_in_range p'.
Proof.
  intros [Hd Hw] Hs. destruct Hs as [e p Hb | v p | msg p l1 s l2 E | p l1 mt ms l2 E | url p l1 mt l2 E];
    unfold waits_in_range; cbn.
  - rewrite handleRecord_durationSec. split; [exact Hd |].
    intros mt' ms' Hin.
    destruct (handleRecord_cases e p) as [[_ S] | [[_ S] | [_ S]]]; rewrite S in Hin; eauto.
    apply in_app_or in Hin as [Hin | [Hin | []]]; [eauto |].
    inversion Hin; subst. lra.
  - split; [apply clamp_duration_range | exact Hw].
  - split; [exact Hd | exact Hw].
  - split; [exact Hd |]. intros mt' ms' Hin. apply (Hw mt').
    rewrite E. apply in_app_or in Hin as [Hin | [Hin | Hin]]; [| discriminate |];
      apply in_or_app; cbn; tauto.
  - split; [exact Hd |]. intros mt' ms' Hin. apply (Hw mt').
    rewrite E. apply in_app_or in Hin as [Hin | Hin]; apply in_or_app; cbn; tauto.
Qed.

End PageFacts.

(** * The claims *)

(** ** C1 *)

(** C1: a frame is a function of (elapsed, W, H, trees) alone.  Started on any
    two drawing contexts, whatever their styles and current path (in
    particular on two fresh surfaces), [renderFrame] emits the same sequence
    of drawing operations: every style it paints with, including the
    [lineCap] of the grass strokes, is set earlier in the same frame, and every
    path is begun in it.  No state carries over between frames. *)
Theorem renderFrame_deterministic {num} {JN : JsNum num} {JM : JsMath num}
    (elapsed W H : num) (trees : list (Tree.t num)) (c1 c2 : ctx) :
  frame_ops elapsed W H trees c1 = frame_ops elapsed W H trees c2.
Proof.
  unfold frame_ops.
  destruct (Agree.renderFrame_respects elapsed W H trees c1 c2 (Agree.agree_none c1 c2))
    as (_ & Hops & _).
  exact Hops.
Qed.

(** ** C2 *)

(** C2: for every count and dimensions, [generateTrees] returns its
    descriptors sorted non-decreasingly by parallax layer. *)
Theorem generateTrees_sorted {num} {JN : JsNum num} (count : nat) (W H : num) :
  Sorted le_layer (generateTrees count W H).
Proof. unfold generateTrees. apply js_sort_sorted. Qed.

(** ** C5 *)

(** C5: for every seed, every value of [mulberry32(seed)] lies in [0, 1),
    and the k-th value is a function of the seed and k only: it is computed
    from the state reached by k+1 additions [a += 0x6d2b79f5] from the seed. *)
Theorem mulberry32_values_in_unit (seed : float) (n k : nat) :
  Forall (fun v => 0 <= v < 1)%Q (@mulberry32_take Q _ seed n) /\
  nth_error (@mulberry32_take Q _ seed n) k =
    if (k <? n)%nat
    then Some (fst (@rng Q _ (Nat.iter k (fun a => fst (mulberry32_step a)) seed)))
    else None.
Proof.
  split.
  - revert seed; induction n as [|n IH]; intros seed; cbn [mulberry32_take]; [constructor|].
    destruct (rng seed) as [v a'] eqn:E. constructor.
    + pose proof (rng_Q_range seed) as Hr. rewrite E in Hr. exact Hr.
    + apply IH.
  - revert seed k; induction n as [|n IH]; intros seed k; cbn [mulberry32_take].
    + destruct k; reflexivity.
    + pose proof (rng_state (JN := JsNum_Q) seed) as Hs.
      destruct (rng seed) as [v a'] eqn:E. simpl in Hs. subst a'.
      destruct k as [|k].
      * cbn [nth_error Nat.ltb Nat.leb Nat.iter nat_rect]. rewrite E. reflexivity.
      * cbn [nth_error]. rewrite IH. change (S k <? S n)%nat with (k <? n)%nat.
        destruct (k <? n)%nat; [|reflexivity].
        rewrite Nat.iter_succ_r. reflexivity.
Qed.

(** ** C3 *)

(** C3, as stated (exact arithmetic): the forest scroll would repeat with
    period [2W / speed] for every tree and every elapsed time.  It does not:
    the first tree of the page at [e = 0] is at [x + W] (about 1618.8) and at
    [e = 2W/8 = 320] at [x - W] (about -941.2).  JavaScript's [%] keeps the sign
    of the dividend. *)
Lemma tree_px_period_counterexample :
  ~ (forall (W e : Q) (tr : Tree.t Q),
        tree_px W e tr == tree_px W (e + W * [# 2] / layer_speed (Tree.layer tr))%js tr)%Q.
Proof.
  intros Hc. specialize (Hc 1280%Q 0%Q (nth 0 page_trees_Q no_tree)).
  apply Qeq_bool_iff in Hc. vm_compute in Hc. discriminate.
Qed.

(** C3 (amended): for a surface of positive width, once a tree has scrolled
    past the origin ([x - e * speed <= 0]) its screen position at [e] and at
    [e + 2W / speed] coincide. *)
Theorem tree_px_period_after_origin (W e : Q) (tr : Tree.t Q) :
  (0 < W)%Q -> (Tree.x tr - e * layer_speed (Tree.layer tr) <= 0)%Q ->
  (tree_px W e tr == tree_px W (e + W * [# 2] / layer_speed (Tree.layer tr))%js tr)%Q.
Proof.
  intros HW Hx.
  change (tree_px W ?t tr) with
    (Qjs_rem (Tree.x tr - t * layer_speed (Tree.layer tr)) (W * 2) + W)%Q.
  change (js_lit 2) with 2%Q. change (js_add e ?y) with (e + y)%Q.
  change (js_mul W 2%Q) with (W * 2)%Q. change (js_div (W * 2)%Q ?s) with ((W * 2) / s)%Q.
  assert (Hs : (0 < layer_speed (Tree.layer tr))%Q) by (destruct (Tree.layer tr); reflexivity).
  set (s := layer_speed (Tree.layer tr)) in *.
  assert (E : (Tree.x tr - (e + W * 2 / s) * s == (Tree.x tr - e * s) - W * 2)%Q)
    by (field; lra).
  rewrite (Qjs_rem_comp _ _ (W * 2) (W * 2) E (Qeq_refl _)).
  rewrite Qjs_rem_sub_divisor by lra. reflexivity.
Qed.

Lemma tree_px_period_after_origin_witness :
  (0 < 1280)%Q /\
  (Tree.x (nth 0 page_trees_Q no_tree) - 320 * layer_speed (Tree.layer (nth 0 page_trees_Q no_tree)) <= 0)%Q /\
  (tree_px 1280 320 (nth 0 page_trees_Q no_tree) ==
   tree_px 1280 (320 + 1280 * [# 2] / layer_speed (Tree.layer (nth 0 page_trees_Q no_tree)))%js
           (nth 0 page_trees_Q no_tree))%Q.
Proof.
  assert (H1 : (0 < 1280)%Q) by reflexivity.
  assert (H2 : (Tree.x (nth 0 page_trees_Q no_tree)
                - 320 * layer_speed (Tree.layer (nth 0 page_trees_Q no_tree)) <= 0)%Q)
    by (apply Qle_bool_iff; vm_compute; reflexivity).
  split; [exact H1 | split; [exact H2 | apply (tree_px_period_after_origin 1280 320 _ H1 H2)]].
Defined.

(** ** C4 *)

(** C4: for every width [W > -300], in exact arithmetic, the character is
    at -150 at elapsed time 0 and again after one loop, [(W + 300) / 140]
    seconds, and from time 0 on its position repeats with that period.  At
    the width of the page's canvas, 1280, both positions are also exactly
    -150 in binary64. *)
Theorem cat_x_loop (W : Q) :
  (-300 < W)%Q ->
  (@cat_x Q _ 0 W == -150 /\ @cat_x Q _ ((W + 300) / 140) W == -150)%Q /\
  (forall t : Q, 0 <= t -> @cat_x Q _ (t + (W + 300) / 140) W == @cat_x Q _ t W)%Q /\
  @cat_x float _ [# 0]%js [# 1280]%js = [# -150]%js /\
  @cat_x float _ (([# 1280] + [# 300]) / [# 140])%js [# 1280]%js = [# -150]%js.
Proof.
  intros HW.
  change (@cat_x Q _ ?t W) with (Qjs_rem (t * 140) (W + 300) - 150)%Q.
  split; [split|split; [|split; vm_compute; reflexivity]].
  - unfold Qjs_rem.
    rewrite (Qtrunc_comp (0 * 140 / (W + 300)) 0) by (field; lra).
    change (Qtrunc 0) with 0%Z. ring.
  - rewrite (Qjs_rem_comp ((W + 300) / 140 * 140) (W + 300) (W + 300) (W + 300))
      by (try field; reflexivity).
    unfold Qjs_rem.
    rewrite (Qtrunc_comp ((W + 300) / (W + 300)) 1) by (field; lra).
    change (Qtrunc 1) with 1%Z. ring.
  - intros t Ht.
    rewrite (Qjs_rem_comp ((t + (W + 300) / 140) * 140) (t * 140 + (W + 300))
               (W + 300) (W + 300)) by (try field; reflexivity).
    rewrite Qjs_rem_add_divisor by lra. reflexivity.
Qed.

Lemma cat_x_loop_witness :
  (-300 < 1280)%Q /\
  ((@cat_x Q _ 0 1280 == -150 /\ @cat_x Q _ ((1280 + 300) / 140) 1280 == -150)%Q /\
   (forall t : Q, 0 <= t -> @cat_x Q _ (t + (1280 + 300) / 140) 1280 == @cat_x Q _ t 1280)%Q /\
   @cat_x float _ [# 0]%js [# 1280]%js = [# -150]%js /\
   @cat_x float _ (([# 1280] + [# 300]) / [# 140])%js [# 1280]%js = [# -150]%js).
Proof.
  assert (H : (-300 < 1280)%Q) by reflexivity.
  split; [exact H | apply (cat_x_loop 1280 H)].
Defined.

(** ** C8 *)

(** C8, as stated, in binary64 on the page's own scene: of
    [generateTrees(24, 1280, 720)], the 19th descriptor is on layer 2 with
    height 163.80..., the 14th on layer 1 with height 170.31...: the nearer
    tree is not taller.  The random factor [0.8 + rng() * 0.4] makes the height
    ranges of layers 1 and 2 overlap. *)
Lemma generateTrees_depth_counterexample :
  ~ (forall (count : nat) (W H : float) (t1 t2 : Tree.t float),
        In t1 (generateTrees count W H) -> In t2 (generateTrees count W H) ->
        (layer_index (Tree.layer t2) < layer_index (Tree.layer t1))%Z ->
        PrimFloat.ltb (Tree.height t2) (Tree.height t1) = true /\
        PrimFloat.ltb (Tree.baseY t2) (Tree.baseY t1) = true).
Proof.
  intros Hc.
  assert (I1 : In (nth 18 page_trees_F64 no_tree) page_trees_F64)
    by (apply nth_In; vm_compute; lia).
  assert (I2 : In (nth 13 page_trees_F64 no_tree) page_trees_F64)
    by (apply nth_In; vm_compute; lia).
  destruct (Hc 24%nat [# 1280]%js [# 720]%js _ _ I1 I2) as [Hh _].
  - vm_compute. reflexivity.
  - vm_compute in Hh. discriminate.
Qed.

(** C8 (amended), in exact arithmetic: for two descriptors of one call with
    the first on a nearer layer, the nearer one is strictly taller when
    [H > 0], except a layer-2 tree against a layer-1 tree (their height
    ranges [0.224H, 0.336H) and [0.16H, 0.24H) overlap); and the nearer one
    has a strictly greater base position when [H >= 250]. *)
Theorem generateTrees_depth_scaling (count : nat) (W H : Q) (t1 t2 : Tree.t Q) :
  In t1 (generateTrees count W H) -> In t2 (generateTrees count W H) ->
  (layer_index (Tree.layer t2) < layer_index (Tree.layer t1))%Z ->
  ((0 < H)%Q -> ~ (Tree.layer t1 = L2 /\ Tree.layer t2 = L1) ->
     (Tree.height t2 < Tree.height t1)%Q) /\
  ((250 <= H)%Q -> (Tree.baseY t2 < Tree.baseY t1)%Q).
Proof.
  intros I1 I2 Hl.
  pose proof (generateTrees_bounds count W H t1 I1) as B1.
  pose proof (generateTrees_bounds count W H t2 I2) as B2.
  unfold tree_bounds in B1, B2. destruct B1 as (B1 & Hh1), B2 as (B2 & Hh2).
  destruct (Tree.layer t1), (Tree.layer t2); cbn in Hl; try lia;
    cbn [layer_index] in *; unfold inject_Z in *; split; intros HH;
    try (intros Hn; exfalso; apply Hn; split; reflexivity);
    try (intros _; specialize (Hh1 HH); specialize (Hh2 HH));
    try (specialize (Hh1 ltac:(lra)); specialize (Hh2 ltac:(lra))); lra.
Qed.

Lemma generateTrees_depth_scaling_witness :
  In (nth 16 page_trees_Q no_tree) page_trees_Q /\ In (nth 8 page_trees_Q no_tree) page_trees_Q /\
  (layer_index (Tree.layer (nth 8 page_trees_Q no_tree))
     < layer_index (Tree.layer (nth 16 page_trees_Q no_tree)))%Z /\
  (((0 < 720)%Q -> ~ (Tree.layer (nth 16 page_trees_Q no_tree) = L2 /\
                      Tree.layer (nth 8 page_trees_Q no_tree) = L1) ->
     (Tree.height (nth 8 page_trees_Q no_tree) < Tree.height (nth 16 page_trees_Q no_tree))%Q) /\
   ((250 <= 720)%Q ->
     (Tree.baseY (nth 8 page_trees_Q no_tree) < Tree.baseY (nth 16 page_trees_Q no_tree))%Q)).
Proof.
  assert (I1 : In (nth 16 page_trees_Q no_tree) page_trees_Q) by (apply nth_In; vm_compute; lia).
  assert (I2 : In (nth 8 page_trees_Q no_tree) page_trees_Q) by (apply nth_In; vm_compute; lia).
  assert (Hl : (layer_index (Tree.layer (nth 8 page_trees_Q no_tree))
                  < layer_index (Tree.layer (nth 16 page_trees_Q no_tree)))%Z)
    by (vm_compute; reflexivity).
  split; [exact I1 | split; [exact I2 | split; [exact Hl |]]].
  exact (generateTrees_depth_scaling 24 1280 720 _ _ I1 I2 Hl).
Defined.

(** ** C6 *)

(** C6, as stated: every step of the controller moves the status along the
    chain [Page.chain_edge].  A click in a browser without
    [canvas.captureStream] takes the page from [idle] straight to [error]. *)
Lemma recState_chain_counterexample :
  ~ (forall ev p p', Page.reachable p -> Page.step ev p p' ->
       Page.chain_edge (Page.recState p) (Page.recState p') = true).
Proof.
  intros Hc.
  pose proof (Hc (Page.Click Page.env_no_capture) Page.init
                 (Page.handleRecord Page.env_no_capture Page.init)
                 Page.reach_init (Page.step_click _ Page.init eq_refl)) as E.
  vm_compute in E. discriminate.
Qed.

(** C6 (amended): as long as the recorder has reported no error, every step
    moves the status along [Page.status_edge]: it stays put, or goes from
    idle, done or error to recording or (on a missing capability) straight
    to error, from recording to processing or error, and from processing to
    done or error.  (After a recorder error the pending timer and [onstop]
    of the same [handleRecord] call still run, and move the status from
    error to processing and then to done; the hypothesis leaves such runs
    out.) *)
Theorem recState_no_error_transitions ev p p' :
  Page.reachable_no_error p -> Page.step ev p p' ->
  Page.status_edge (Page.recState p) (Page.recState p') = true.
Proof.
  intros Hr Hs.
  exact (PageFacts.status_edge_step ev p p' (PageFacts.session_inv_reachable p Hr) Hs).
Qed.

Lemma recState_no_error_transitions_witness :
  Page.reachable_no_error Page.init /\
  Page.step (Page.Click Page.env_no_capture) Page.init
    (Page.handleRecord Page.env_no_capture Page.init) /\
  Page.status_edge (Page.recState Page.init)
    (Page.recState (Page.handleRecord Page.env_no_capture Page.init)) = true.
Proof.
  assert (Hr : Page.reachable_no_error Page.init) by constructor.
  assert (Hs : Page.step (Page.Click Page.env_no_capture) Page.init
                 (Page.handleRecord Page.env_no_capture Page.init))
    by (apply Page.step_click; reflexivity).
  split; [exact Hr | split; [exact Hs |]].
  exact (recState_no_error_transitions _ _ _ Hr Hs).
Defined.

(** ** C9 *)

(** C9: with a canvas present, when [captureStream] is missing or no format
    of the preference list is supported, [handleRecord] sets the status to
    error with a non-empty message, leaves the animation's [running] flag as
    it was, and starts no recorder. *)
Theorem handleRecord_unsupported (e : Page.env) (p : Page.page) :
  Page.has_canvas e = true ->
  (Page.has_captureStream e = false \/ Page.select_mime e Page.mimeTypes = ""%string) ->
  Page.recState (Page.handleRecord e p) = Page.error /\
  (exists s, Page.errorMsg (Page.handleRecord e p) = Some s /\ s <> ""%string) /\
  Page.running (Page.handleRecord e p) = Page.running p /\
  Page.sessions (Page.handleRecord e p) = Page.sessions p.
Proof.
  intros Hc Hu. unfold Page.handleRecord. rewrite Hc. cbn [negb].
  destruct Hu as [Hu | Hu].
  - rewrite Hu. cbn.
    repeat split; eexists; split; [reflexivity | discriminate].
  - destruct (Page.has_captureStream e); cbn [negb].
    + rewrite Hu. cbn.
      repeat split; eexists; split; [reflexivity | discriminate].
    + repeat split; eexists; split; [reflexivity | discriminate].
Qed.

Lemma handleRecord_unsupported_witness :
  Page.has_canvas Page.env_no_capture = true /\
  Page.recState (Page.handleRecord Page.env_no_capture Page.init) = Page.error /\
  (exists s, Page.errorMsg (Page.handleRecord Page.env_no_capture Page.init) = Some s /\ s <> ""%string) /\
  Page.running (Page.handleRecord Page.env_no_capture Page.init) = Page.running Page.init /\
  Page.sessions (Page.handleRecord Page.env_no_capture Page.init) = Page.sessions Page.init.
Proof.
  split; [reflexivity |].
  apply (handleRecord_unsupported Page.env_no_capture Page.init); [reflexivity | left; reflexivity].
Defined.

(** ** C10 *)

(** C10, as stated: every reachable page stores a whole number of seconds in
    [1, 60].  Typing 2.5 gives [Math.max(1, Math.min(60, 2.5)) = 2.5]: the
    value is clamped, not rounded. *)
Lemma durationSec_integer_counterexample :
  ~ (forall p, Page.reachable p ->
       (exists n : Z, Page.durationSec p == inject_Z n)%Q /\
       (1 <= Page.durationSec p <= 60)%Q).
Proof.
  intros Hc.
  assert (Hr : Page.reachable (Page.set_durationSec (Page.clamp_duration (5 # 2)) Page.init))
    by (eapply Page.reach_step; [apply Page.reach_init | apply Page.step_input]).
  destruct (Hc _ Hr) as [[n Hn] _].
  assert (Ed : Page.durationSec (Page.set_durationSec (Page.clamp_duration (5 # 2)) Page.init)
               = (5 # 2)%Q) by (vm_compute; reflexivity).
  rewrite Ed in Hn. unfold Qeq, inject_Z in Hn. cbn [Qnum Qden] in Hn. lia.
Qed.

(** C10 (amended): on every reachable page the stored duration lies in
    [1, 60], and every recording that waits for its timer waits between 1000
    and 60000 milliseconds. *)
Theorem durationSec_in_range (p : Page.page) :
  Page.reachable p ->
  (1 <= Page.durationSec p <= 60)%Q /\
  (forall mt ms, In (Page.Waiting mt ms) (Page.sessions p) -> (1000 <= ms <= 60000)%Q).
Proof.
  induction 1 as [| ev p p' _ IH Hs].
  - split; [cbn; lra | intros mt ms []].
  - exact (PageFacts.waits_in_range_step ev p p' IH Hs).
Qed.

Lemma durationSec_in_range_witness :
  let p := Page.handleRecord Page.env_webm
             (Page.set_durationSec (Page.clamp_duration (5 # 2)) Page.init) in
  Page.reachable p /\
  (1 <= Page.durationSec p <= 60)%Q /\
  (forall mt ms, In (Page.Waiting mt ms) (Page.sessions p) -> (1000 <= ms <= 60000)%Q).
Proof.
  intros p.
  assert (Hr : Page.reachable p).
  { eapply Page.reach_step; [| apply Page.step_click; reflexivity].
    eapply Page.reach_step; [apply Page.reach_init | apply Page.step_input]. }
  split; [exact Hr |]. exact (durationSec_in_range p Hr).
Defined.

(** ** C7 *)

(** C7, as stated: the body bob is driven by the same gait sinusoid as the
    legs, i.e. it is a function of [step = Math.sin(t * 8)].  At [t = 0] and
    [t = PI/8] the step is 0 in both, but the bob [Math.sin(t * 6) * 4] is 0
    and [4 sin(3 PI / 4) > 0]. *)
Lemma cat_bob_gait_counterexample :
  ~ exists F : R -> R, forall t : R, cat_bob (num := R) t = F (cat_step (num := R) t).
Proof.
  intros [F HF].
  assert (E : forall q : Q, js_lit (num := R) q = Q2R q) by reflexivity.
  assert (E8 : Q2R 8 = 8%R) by (unfold Q2R; cbn; field).
  assert (E6 : Q2R 6 = 6%R) by (unfold Q2R; cbn; field).
  assert (E4 : Q2R 4 = 4%R) by (unfold Q2R; cbn; field).
  pose proof (HF 0%R) as H0. pose proof (HF (PI / 8)%R) as H1.
  unfold cat_bob, cat_step in H0, H1. cbn [js_mul js_sin js_lit JsNum_R JsMath_R] in H0, H1.
  rewrite E8, E6, E4 in H0, H1.
  replace (0 * 8)%R with 0%R in H0 by ring. replace (0 * 6)%R with 0%R in H0 by ring.
  replace (PI / 8 * 8)%R with PI in H1 by field.
  rewrite sin_0 in H0. rewrite sin_PI in H1.
  assert (Hs : (0 < sin (PI / 8 * 6))%R).
  { apply sin_gt_0; pose proof PI_RGT_0; lra. }
  rewrite <- H0 in H1. lra.
Qed.

Section CatGait.
Context {num : Type} {JN : JsNum num} {JM : JsMath num}.
Local Open Scope js_scope.

(** C7 (amended): the first seven drawing operations of [drawCat] are the
    shadow, the tail, the body and the four legs.  The gait sinusoid
    [step = Math.sin(t * 8)], a function of elapsed time only, sets the
    tail's curve control points and swings the legs, even-index legs by
    [+step * 12] and odd-index legs by [-step * 12]; the vertical bob is a
    second sinusoid, [Math.sin(t * 6) * 4], that shifts the body, tail and
    leg tops. *)
Theorem drawCat_gait (t W H : num) (c : ctx) :
  let x := cat_x t W in
  let groundY := H * [# 0.78] in
  let step := js_sin (t * [# 8]) in
  let bob := js_sin (t * [# 6]) * [# 4] in
  let bodyY := groundY - [# 80] + bob in
  let legY := groundY - [# 8] in
  let leg (i : nat) (phase : num) :=
    PStroke [MoveTo (x + [# 70] + nat_num i * [# 22]) (bodyY + [# 20]);
             LineTo (x + [# 70] + nat_num i * [# 22] + phase * [# 12]) legY]
            (css "#3a3a3a") [# 10] "round" in
  firstn 7 (emitted (drawCat t W H c)) =
  [PFill [Ellipse (x + [# 120]) (groundY + [# 6]) [# 80] [# 16] [# 0] [# 0] (js_PI * [# 2])]
         (css "rgba(0,0,0,0.15)");
   PStroke [MoveTo (x + [# 40]) (bodyY - [# 10]);
            QuadTo (x - [# 20]) (bodyY - [# 50] - step * [# 8])
                   (x + [# 10]) (bodyY - [# 70] - step * [# 4])]
           (css "#333") [# 14] "round";
   PFill [Ellipse (x + [# 110]) bodyY [# 90] [# 48] [# 0] [# 0] (js_PI * [# 2])] (css "#444");
   leg 0%nat step; leg 1%nat (js_neg step); leg 2%nat step; leg 3%nat (js_neg step)].
Proof. reflexivity. Qed.
End CatGait.

(** * Further properties of the code *)

Section MoreTrees.
Context {num : Type} {JN : JsNum num}.

Lemma make_tree_layer (W H : num) i a :
  Tree.layer (fst (make_tree W H i a)) = layer_of_nat (i mod 3).
Proof.
  unfold make_tree.
  destruct (rng a) as [r1 b1]. destruct (rng b1) as [r2 b2].
  destruct (rng b2) as [r3 b3]. destruct (rng b3) as [r4 b4].
  destruct (rng b4) as [r5 b5]. reflexivity.
Qed.

Lemma push_trees_layers (W H : num) i count a :
  map Tree.layer (push_trees W H i count a) = map (fun j => layer_of_nat (j mod 3)) (seq i count).
Proof.
  revert i a; induction count as [|count IH]; intros i a; [reflexivity|].
  cbn [push_trees]. destruct (make_tree W H i a) as [tr a'] eqn:E.
  cbn [map seq]. rewrite IH. f_equal.
  change tr with (fst (tr, a')). rewrite <- E. apply make_tree_layer.
Qed.

Lemma filter_sort_insert_other (a : Tree.t num) l k :
  on_layer k a = false ->
  filter (on_layer k) (sort_insert layer_cmp a l) = filter (on_layer k) l.
Proof.
  intros Ha. induction l as [|b l IH]; cbn [sort_insert].
  - cbn. rewrite Ha. reflexivity.
  - destruct (layer_cmp b a <=? 0).
    + cbn [filter]. rewrite IH. reflexivity.
    + cbn [filter]. rewrite Ha. reflexivity.
Qed.

Lemma filter_above_nil (b : Tree.t num) l k :
  Sorted le_layer (b :: l) -> k < layer_index (Tree.layer b) -> filter (on_layer k) (b :: l) = [].
Proof.
  intros Hs Hk. apply Sorted_StronglySorted in Hs;
    [| intros x y z; unfold le_layer; lia].
  inversion Hs as [|? ? _ Hall]; subst.
  cbn [filter]. unfold on_layer at 1. replace (layer_index (Tree.layer b) =? k) with false by lia.
  induction l as [|d l IH]; [reflexivity|].
  inversion Hall as [|? ? Hd Hrest]; subst. unfold le_layer in Hd.
  cbn [filter]. unfold on_layer at 1. replace (layer_index (Tree.layer d) =? k) with false by lia.
  apply IH; [| exact Hrest].
  inversion Hs as [|? ? Hs' Hall']; subst. constructor.
  - inversion Hs' as [|? ? Hs'' _]; exact Hs''.
  - inversion Hall'; assumption.
Qed.

Lemma filter_sort_insert_same (a : Tree.t num) l k :
  Sorted le_layer l -> on_layer k a = true ->
  filter (on_layer k) (sort_insert layer_cmp a l) = filter (on_layer k) l ++ [a].
Proof.
  intros Hs Ha. induction l as [|b l IH]; cbn [sort_insert].
  - cbn. rewrite Ha. reflexivity.
  - destruct (layer_cmp b a <=? 0) eqn:E.
    + inversion Hs as [|? ? Hl _]; subst.
      cbn [filter]. rewrite (IH Hl). destruct (on_layer k b); reflexivity.
    + unfold layer_cmp in E. apply Z.leb_gt in E.
      unfold on_layer in Ha. apply Z.eqb_eq in Ha.
      pose proof (filter_above_nil b l k Hs ltac:(lia)) as Hn.
      cbn [filter]. unfold on_layer at 1. rewrite Ha, Z.eqb_refl.
      cbn [filter] in Hn. rewrite Hn. reflexivity.
Qed.

Lemma filter_js_sort_fold (l acc : list (Tree.t num)) k :
  Sorted le_layer acc ->
  filter (on_layer k) (fold_left (fun acc a => sort_insert layer_cmp a acc) l acc)
  = filter (on_layer k) acc ++ filter (on_layer k) l.
Proof.
  revert acc; induction l as [|a l IH]; intros acc Hs; cbn [fold_left].
  - rewrite app_nil_r. reflexivity.
  - rewrite (IH _ (sort_insert_sorted a acc Hs)).
    destruct (on_layer k a) eqn:Ha; cbn [filter]; rewrite Ha.
    + rewrite (filter_sort_insert_same a acc k Hs Ha), <- app_assoc. reflexivity.
    + rewrite (filter_sort_insert_other a acc k Ha). reflexivity.
Qed.
End MoreTrees.

(** X1: [generateTrees count W H] returns [count] trees, and their layers
    are those the loop assigns, [i mod 3] for [i < count], rearranged by the
    sort: each of the three layers receives its share. *)
Theorem generateTrees_layers {num} {JN : JsNum num} (count : nat) (W H : num) :
  List.length (generateTrees count W H) = count /\
  Permutation (map Tree.layer (generateTrees count W H))
              (map (fun i => layer_of_nat (i mod 3)) (seq 0 count)).
Proof.
  unfold generateTrees. pose proof (js_sort_perm layer_cmp (push_trees W H 0 count mulberry32_seed)) as P.
  split.
  - rewrite (Permutation_length P).
    rewrite <- (length_map Tree.layer), push_trees_layers, length_map, length_seq. reflexivity.
  - rewrite <- (push_trees_layers W H 0 count mulberry32_seed). apply Permutation_map, P.
Qed.

(** X2: the sort in [generateTrees] is stable: within each layer, the trees
    keep the order in which the loop generated them. *)
Theorem generateTrees_stable {num} {JN : JsNum num} (count : nat) (W H : num) (k : Z) :
  filter (on_layer k) (generateTrees count W H) = filter (on_layer k) (push_trees W H 0 count mulberry32_seed).
Proof.
  unfold generateTrees, js_sort. rewrite filter_js_sort_fold by constructor. reflexivity.
Qed.

Section TreeFields.
Local Open Scope Q_scope.

Lemma make_tree_fields (W H : Q) j b : tree_fields W H (fst (make_tree W H j b)).
Proof.
  unfold make_tree.
  destruct (rng b) as [r1 b1] eqn:E1. destruct (rng b1) as [r2 b2] eqn:E2.
  destruct (rng b2) as [r3 b3] eqn:E3. destruct (rng b3) as [r4 b4] eqn:E4.
  destruct (rng b4) as [r5 b5] eqn:E5.
  apply rng_Q_range_eq in E1, E3, E4, E5.
  unfold tree_fields; cbn [fst Tree.x Tree.height Tree.width Tree.hue Tree.layer].
  unfold layer_num.
  set (c := inject_Z (layer_index (layer_of_nat (j mod 3)))).
  change (@js_lit Q _ c) with c.
  assert (Hc : 0 <= c <= 2) by (unfold c; destruct (layer_of_nat (j mod 3)); split; discriminate).
  cbn [js_add js_sub js_mul js_lit JsNum_Q].
  split; [| split].
  - intros HW. split; nra.
  - intros HH.
    assert (HK : 0 < H * (0.12 + c * 0.08)) by nra.
    set (K := H * (0.12 + c * 0.08)) in *.
    assert (Hh : 0 < K * (0.8 + r3 * 0.4)) by nra.
    set (h := K * (0.8 + r3 * 0.4)) in *.
    split; [exact Hh | split; nra].
  - lra.
Qed.
End TreeFields.

(** X3: in exact arithmetic every tree of [generateTrees count W H] has
    [-W/2 <= x < 3W/2] (for [W > 0]), a positive height and a width between
    6% and 10% of it (for [H > 0]), and a hue in [115 + 10 c, 125 + 10 c)
    for its layer [c]. *)
Theorem generateTrees_fields (count : nat) (W H : Q) (t : Tree.t Q) :
  In t (generateTrees count W H) -> tree_fields W H t.
Proof.
  intros Hin. destruct (generateTrees_made count W H t Hin) as (j & b & ->).
  apply make_tree_fields.
Qed.

Lemma generateTrees_fields_witness :
  In (nth 0 page_trees_Q no_tree) page_trees_Q /\ tree_fields 1280 720 (nth 0 page_trees_Q no_tree).
Proof.
  assert (I : In (nth 0 page_trees_Q no_tree) page_trees_Q) by (apply nth_In; vm_compute; lia).
  split; [exact I | exact (generateTrees_fields 24 1280 720 _ I)].
Defined.

Module PageMore.
Import Page.

Lemma select_mime_no_recorder (e : env) l :
  has_MediaRecorder e = false -> select_mime e l = ""%string.
Proof.
  intros Hm. induction l as [|mt l IH]; [reflexivity|].
  cbn [select_mime]. rewrite Hm. exact IH.
Qed.

Lemma select_mime_spec (e : env) (l : list string) :
  ~ In ""%string l ->
  (select_mime e l = ""%string <->
     has_MediaRecorder e = false \/ Forall (fun mt => isTypeSupported e mt = false) l) /\
  (select_mime e l <> ""%string ->
     exists pre post, l = pre ++ select_mime e l :: post /\
       has_MediaRecorder e = true /\ isTypeSupported e (select_mime e l) = true /\
       Forall (fun mt => isTypeSupported e mt = false) pre).
Proof.
  intros Hne. destruct (has_MediaRecorder e) eqn:Hm.
  2:{ rewrite (select_mime_no_recorder e l Hm).
      split; [split; [intros _; left; reflexivity | reflexivity] | intros Hx; contradiction]. }
  induction l as [|mt l IH]; cbn [select_mime].
  - split; [split; [intros _; right; constructor | reflexivity] | intros Hx; contradiction].
  - assert (Hmt : mt <> ""%string) by (intros ->; apply Hne; left; reflexivity).
    assert (Hl : ~ In ""%string l) by (intros Hin; apply Hne; right; exact Hin).
    destruct (IH Hl) as [IH1 IH2].
    rewrite Hm; cbn [andb].
    destruct (isTypeSupported e mt) eqn:Hs.
    + split.
      * split; [intros Hx; contradiction | intros [Hx | Hx]; [discriminate | inversion Hx; congruence]].
      * intros _. exists [], l. repeat split; auto.
    + split.
      * rewrite IH1. split.
        -- intros [Hx | Hx]; [discriminate | right; constructor; assumption].
        -- intros [Hx | Hx]; [discriminate | right; inversion Hx; assumption].
      * intros Hn. destruct (IH2 Hn) as (pre & post & El & H1 & H2 & H3).
        exists (mt :: pre), post. rewrite El at 1. repeat split; auto.
Qed.

Lemma display_inv_step ev p p' :
  session_inv p -> display_inv p -> is_error_event ev = false -> step ev p p' -> display_inv p'.
Proof.
  intros Hs [Hu Hm] He Hst.
  destruct Hst as [e p Hb | v p | msg p l1 s l2 E | p l1 mt ms l2 E | url p l1 mt l2 E].
  - assert (Hn : sessions p = []).
    { destruct Hs as [[Hn _] | [(mt & ms & _ & Hr) | (mt & _ & Hr)]];
        [exact Hn | rewrite Hr in Hb; discriminate | rewrite Hr in Hb; discriminate]. }
    unfold handleRecord.
    destruct (has_canvas e), (has_captureStream e), (String.eqb _ _); cbn;
      split; intros Hx; try (exfalso; apply Hx; reflexivity); auto.
  - exact (conj Hu Hm).
  - discriminate.
  - assert (Hne : sessions p <> []) by (rewrite E; apply PageFacts.app_cons_nil).
    split; cbn; intros Hx.
    + destruct (Hu Hx) as [_ Hx']. contradiction.
    + destruct (Hm Hx) as [_ Hx']. contradiction.
  - assert (Hne : sessions p <> []) by (rewrite E; apply PageFacts.app_cons_nil).
    destruct Hs as [[Hn _] | [(mt' & ms' & Hn & Hr) | (mt' & Hn & Hr)]]; try contradiction.
    + rewrite Hn in E. symmetry in E. apply PageFacts.app_cons_singleton in E as (_ & Ex & _).
      discriminate.
    + rewrite Hn in E. symmetry in E. apply PageFacts.app_cons_singleton in E as (-> & _ & ->).
      split; cbn; intros Hx; [split; reflexivity |].
      destruct (Hm Hx) as [_ Hx']. contradiction.
Qed.

Lemma display_inv_reachable p : reachable_no_error p -> session_inv p /\ display_inv p.
Proof.
  induction 1 as [| ev p p' _ [IHs IHd] He Hs].
  - split; [exact PageFacts.session_inv_init |].
    split; intros Hx; exfalso; apply Hx; reflexivity.
  - split; [exact (PageFacts.session_inv_step ev p p' IHs He Hs) |].
    exact (display_inv_step ev p p' IHs IHd He Hs).
Qed.
End PageMore.

(** X4: [handleRecord] picks the first of its three WebM types the
    recorder supports; it picks none exactly when [MediaRecorder] is absent
    or supports none of them. *)
Theorem select_mime_preference (e : Page.env) :
  (Page.select_mime e Page.mimeTypes = ""%string <->
     Page.has_MediaRecorder e = false \/
     Forall (fun mt => Page.isTypeSupported e mt = false) Page.mimeTypes) /\
  (Page.select_mime e Page.mimeTypes <> ""%string ->
     exists pre post, Page.mimeTypes = pre ++ Page.select_mime e Page.mimeTypes :: post /\
       Page.has_MediaRecorder e = true /\
       Page.isTypeSupported e (Page.select_mime e Page.mimeTypes) = true /\
       Forall (fun mt => Page.isTypeSupported e mt = false) pre).
Proof.
  apply PageMore.select_mime_spec.
  cbn. intros [H | [H | [H | []]]]; discriminate.
Qed.

(** X5: as long as no recorder error occurs, at most one recording is in
    flight, and the record button is enabled exactly when none is. *)
Theorem page_single_recording (p : Page.page) :
  Page.reachable_no_error p ->
  (List.length (Page.sessions p) <= 1)%nat /\
  (Page.button_enabled (Page.recState p) = true <-> Page.sessions p = []).
Proof.
  intros Hr. pose proof (PageFacts.session_inv_reachable p Hr) as Hi.
  destruct Hi as [[Hn Hb] | [(mt & ms & Hn & Hs) | (mt & Hn & Hs)]]; rewrite Hn; cbn.
  - split; [lia | split; auto].
  - rewrite Hs. split; [lia | split; discriminate].
  - rewrite Hs. split; [lia | split; discriminate].
Qed.

Lemma page_single_recording_witness :
  let p := Page.handleRecord Page.env_webm Page.init in
  Page.reachable_no_error p /\
  (List.length (Page.sessions p) <= 1)%nat /\
  (Page.button_enabled (Page.recState p) = true <-> Page.sessions p = []).
Proof.
  intros p.
  assert (Hr : Page.reachable_no_error p).
  { apply (Page.rne_step (Page.Click Page.env_webm) Page.init); [constructor | reflexivity |].
    apply Page.step_click. reflexivity. }
  split; [exact Hr | exact (page_single_recording p Hr)].
Defined.

(** X6: as long as no recorder error occurs, a video link is shown only
    in the done state and an error message only in the error state, and in
    both cases no recording is in flight. *)
Theorem page_display_consistent (p : Page.page) :
  Page.reachable_no_error p ->
  (Page.videoUrl p <> None -> Page.recState p = Page.done /\ Page.sessions p = []) /\
  (Page.errorMsg p <> None -> Page.recState p = Page.error /\ Page.sessions p = []).
Proof.
  intros Hr. exact (proj2 (PageMore.display_inv_reachable p Hr)).
Qed.

Lemma page_display_consistent_witness :
  let p := Page.handleRecord Page.env_no_capture Page.init in
  Page.reachable_no_error p /\
  (Page.videoUrl p <> None -> Page.recState p = Page.done /\ Page.sessions p = []) /\
  (Page.errorMsg p <> None -> Page.recState p = Page.error /\ Page.sessions p = []).
Proof.
  intros p.
  assert (Hr : Page.reachable_no_error p).
  { apply (Page.rne_step (Page.Click Page.env_no_capture) Page.init); [constructor | reflexivity |].
    apply Page.step_click. reflexivity. }
  split; [exact Hr | exact (page_display_consistent p Hr)].
Defined.

(** X7: a recorder error sets the error state while the recording goes
    on, which enables the button again: a second click starts a second
    recording while the first is still in flight. *)
Theorem page_overlapping_recordings :
  exists p, Page.reachable p /\ List.length (Page.sessions p) = 2%nat.
Proof.
  set (p1 := Page.handleRecord Page.env_webm Page.init).
  set (p2 := Page.set_recState Page.error
               (Page.set_errorMsg (Some (Page.error_text None)) p1)).
  exists (Page.handleRecord Page.env_webm p2). split; [| reflexivity].
  apply (Page.reach_step (Page.Click Page.env_webm) p2); [| apply Page.step_click; reflexivity].
  apply (Page.reach_step (Page.RecorderError None) p1).
  - apply (Page.reach_step (Page.Click Page.env_webm) Page.init); [constructor |].
    apply Page.step_click. reflexivity.
  - apply (Page.step_error None p1 [] (Page.Waiting "video/webm;codecs=vp9,opus" 10000) []).
    reflexivity.
Qed.

(** X8: the duration input keeps a value in [1, 60] and replaces a value
    below 1 by 1 and a value above 60 by 60. *)
Theorem clamp_duration_cases (v : Q) :
  ((1 <= v <= 60)%Q -> (Page.clamp_duration v == v)%Q) /\
  ((v < 1)%Q -> Page.clamp_duration v = 1%Q) /\
  ((60 < v)%Q -> Page.clamp_duration v = 60%Q).
Proof.
  unfold Page.clamp_duration, Page.js_max, Page.js_min.
  split; [| split]; intros Hv.
  - destruct (Qle_bool 60 v) eqn:E1.
    + apply Qle_bool_iff in E1. assert (E : Qle_bool 1 60 = true) by reflexivity.
      rewrite E. lra.
    + assert (E : Qle_bool 1 v = true) by (apply Qle_bool_iff; lra). rewrite E. reflexivity.
  - assert (E1 : Qle_bool 60 v = false)
      by (apply Bool.not_true_iff_false; rewrite Qle_bool_iff; lra).
    rewrite E1.
    assert (E2 : Qle_bool 1 v = false)
      by (apply Bool.not_true_iff_false; rewrite Qle_bool_iff; lra).
    rewrite E2. reflexivity.
  - assert (E1 : Qle_bool 60 v = true) by (apply Qle_bool_iff; lra). rewrite E1. reflexivity.
Qed.

Open Scope R_scope.


Section ForEach.
Context {num : Type}.

Lemma for_each_ext {B} (l : list B) (body body' : B -> M unit) :
  (forall b, body b = body' b) -> for_each (num := num) l body = for_each l body'.
Proof.
  intros E. induction l as [|b l IH]; cbn [for_each]; [reflexivity|].
  rewrite E, IH. reflexivity.
Qed.

Lemma for_each_segments {B} (l : list B) (f : B -> segment) (c : ctx) :
  for_each (num := num) l (fun b => add_segment (f b)) c =
  Result _ tt (Ctx (fillStyle c) (strokeStyle c) (lineWidth c) (lineCap c) (path c ++ map f l)) [].
Proof.
  revert c; induction l as [|b l IH]; intros c; cbn [for_each map].
  - destruct c; cbn. rewrite app_nil_r. reflexivity.
  - unfold bind at 1. rewrite IH. cbn. rewrite <- app_assoc. reflexivity.
Qed.
End ForEach.

Section Blob.
Context {num : Type} `{JsNum num} `{JsMath num}.
Local Open Scope js_scope.

Lemma drawBlob_result (x y w h : num) (c : ctx) :
  drawBlob x y w h c =
  Result _ tt (Ctx (fillStyle c) (strokeStyle c) (lineWidth c) (lineCap c)
                   (map (blob_seg x y w h) (seq 0 17) ++ [ClosePath]))
         [PFill (map (blob_seg x y w h) (seq 0 17) ++ [ClosePath]) (fillStyle c)].
Proof.
  unfold drawBlob.
  rewrite (for_each_ext _ _ (fun i => add_segment (blob_seg x y w h i)))
    by (intros i; unfold blob_seg, blob_point; destruct (Nat.eqb i 0); reflexivity).
  unfold bind at 1. cbn [beginPath value final emitted].
  unfold bind at 1. rewrite for_each_segments. reflexivity.
Qed.
End Blob.

Section ForEachEmit.
Context {num : Type} {B S : Type}.

Lemma for_each_emit (l : list B) (body : B -> M unit) (sel : @ctx num -> S) (g : B -> S -> paint) c :
  (forall b c, emitted (body b c) = [g b (sel c)] /\ sel (final (body b c)) = sel c) ->
  emitted (for_each l body c) = map (fun b => g b (sel c)) l.
Proof.
  intros Hb. revert c; induction l as [|b l IH]; intros c; [reflexivity|].
  cbn [for_each map]. unfold bind. cbn [emitted].
  destruct (Hb b c) as [E1 E2]. rewrite E1, IH, E2. reflexivity.
Qed.
End ForEachEmit.

Lemma bind_emitted_l {num A B} (m : @M num A) (k : A -> @M num B) c :
  emitted (bind m k c) = emitted (m c) ++ emitted (k (value (m c)) (final (m c))).
Proof. reflexivity. Qed.


Section FrameGen.
Context {num : Type} {JN : JsNum num} {JM : JsMath num}.
Local Open Scope js_scope.

Lemma for_each_emit_flat {B} (l : list B) (body : B -> @M num unit) (g : B -> list paint) c :
  (forall b c, emitted (body b c) = g b) ->
  emitted (for_each l body c) = flat_map g l.
Proof.
  intros Hb. revert c; induction l as [|b l IH]; intros c; [reflexivity|].
  cbn [for_each flat_map]. rewrite bind_emitted_l, Hb, IH. reflexivity.
Qed.

Lemma for_each_length {B} (l : list B) (body : B -> @M num unit) (n : nat) c :
  (forall b c, List.length (emitted (body b c)) = n) ->
  List.length (emitted (for_each l body c)) = (List.length l * n)%nat.
Proof.
  intros Hb. revert c; induction l as [|b l IH]; intros c; [reflexivity|].
  cbn [for_each List.length]. rewrite bind_emitted_l, length_app, Hb, IH. lia.
Qed.

Lemma hill_line_emitted fuel (W H t yBase : num) i x c :
  emitted (hill_line fuel W H t yBase i x c) = [].
Proof.
  revert x c; induction fuel as [|fuel IH]; intros x c; [reflexivity|].
  cbn [hill_line]. destruct (js_leb x W); [|reflexivity].
  rewrite bind_emitted_l, IH. reflexivity.
Qed.

Lemma drawHills_length (W H t : num) c : List.length (emitted (drawHills W H t c)) = 3%nat.
Proof.
  unfold drawHills. rewrite (for_each_length _ _ 1); [reflexivity|].
  intros i c'. cbv zeta. rewrite !bind_emitted_l, hill_line_emitted. reflexivity.
Qed.

Lemma drawForest_emit (W H t : num) trees c :
  emitted (drawForest W H trees t c) = flat_map (tree_paints W t) trees.
Proof.
  unfold drawForest. apply for_each_emit_flat. intros tr c'. cbv zeta.
  rewrite !bind_emitted_l. rewrite drawBlob_result. reflexivity.
Qed.

Lemma drawCat_length (t W H : num) c : List.length (emitted (drawCat t W H c)) = 16%nat.
Proof. reflexivity. Qed.

Lemma drawCat_lineCap (t W H : num) c : lineCap (final (drawCat t W H c)) = "round"%string.
Proof. reflexivity. Qed.

Lemma drawGrass_blade_emit (W H t : num) c :
  emitted (drawGrass W H t c) = map (grass_blade W H t (lineCap c)) (seq 0 140).
Proof.
  unfold drawGrass. cbv zeta. rewrite !bind_emitted_l.
  cbn [set_strokeStyle set_lineWidth emitted final value app].
  rewrite (for_each_emit _ _ (fun c => (strokeStyle c, lineWidth c, lineCap c))
           (fun i '(s, w, k) =>
    let x := ((nat_num i / [# 140]) * W + (js_sin ((t + nat_num i) * [# 0.7]) * [# 20])) % (W) in
    let h := [# 30] + [# 20] * js_sin (nat_num i * [# 0.5] + t * [# 1.2]) in
    let sway := js_sin (t * [# 2] + nat_num i) * [# 8] in
    PStroke [MoveTo x (H * [# 0.98]);
             QuadTo (x + sway) (H * [# 0.98] - h * [# 0.6]) (x + sway * [# 1.6]) (H * [# 0.98] - h)]
            s w k)) by (intros i c'; split; reflexivity).
  apply map_ext. intros i. reflexivity.
Qed.
End FrameGen.

Lemma flat_map_length_2 {num : Type} {JN : JsNum num} {JM : JsMath num} (W e : num) trees :
  List.length (flat_map (tree_paints W e) trees) = (2 * List.length trees)%nat.
Proof. induction trees as [|tr trees IH]; cbn [flat_map List.length]; [reflexivity|].
  rewrite length_app, IH. cbn [List.length tree_paints]. lia. Qed.

Section FrameLayout.
Context {num : Type} {JN : JsNum num} {JM : JsMath num}.
Local Open Scope js_scope.

(** X13: a frame is the sky rectangle, three hills, two operations per
    tree in the order of the list, the ground rectangle, 16 cat operations
    and 140 grass strokes, [161 + 2 n] operations in all; the grass inherits
    the [round] line cap the cat sets. *)
Theorem renderFrame_layout (e W H : num) (trees : list (Tree.t num)) (c : ctx) :
  exists hills cat,
    frame_ops e W H trees c =
      PFillRect [# 0] [# 0] W H
        (linear_gradient [# 0] [# 0] [# 0] H [([# 0], "#a8d0ff"%string); ([# 1], "#e8f6ff"%string)])
      :: hills ++ flat_map (tree_paints W e) trees ++
      PFillRect [# 0] (H * [# 0.72]) W (H * [# 0.28])
        (linear_gradient [# 0] (H * [# 0.7]) [# 0] H [([# 0], "#5aa35a"%string); ([# 1], "#2e6b2e"%string)])
      :: cat ++ map (grass_blade W H e "round") (seq 0 140) /\
    List.length hills = 3%nat /\ List.length cat = 16%nat /\
    List.length (frame_ops e W H trees c) = (161 + 2 * List.length trees)%nat.
Proof.
  unfold frame_ops, renderFrame. cbv zeta.
  rewrite !bind_emitted_l.
  rewrite drawForest_emit, drawGrass_blade_emit, drawCat_lineCap.
  cbn [set_fillStyle fillRect emitted final value app fillStyle].
  eexists _, _. split; [reflexivity|].
  rewrite drawHills_length, drawCat_length. split; [reflexivity|split; [reflexivity|]].
  cbn [List.length]. rewrite !length_app. cbn [List.length].
  rewrite ?length_app. rewrite ?drawHills_length, ?drawCat_length, length_map, length_seq, flat_map_length_2. lia.
Qed.
End FrameLayout.


Section RFacts.

Lemma noise2D_R_range (x y : R) : 0 <= noise2D (num := R) x y <= 1.
Proof.
  unfold noise2D. cbn [js_add js_sub js_mul js_lit js_sin js_cos JsNum_R JsMath_R].
  set (s := sin _). set (c := cos _).
  assert (Hs : -1 <= s <= 1) by apply SIN_bound.
  assert (Hc : -1 <= c <= 1) by apply COS_bound.
  replace (Q2R 0.5) with (/2) by (unfold Q2R; cbn; lra).
  nra.
Qed.

Lemma blob_point_bounds (x y w h : R) i :
  0 <= w -> 0 <= h ->
  x - w * (5/100) <= fst (blob_point (num := R) x y w h i) <= x + w * (105/100) /\
  y - h * (5/100) <= snd (blob_point (num := R) x y w h i) <= y + h * (105/100).
Proof.
  intros Hw Hh. unfold blob_point.
  cbn [fst snd js_add js_sub js_mul js_div js_lit js_sin js_cos js_PI JsNum_R JsMath_R].
  set (a := _ * PI * _).
  pose proof (noise2D_R_range (cos a) (sin a)) as N1.
  pose proof (noise2D_R_range (sin a) (cos a)) as N2.
  set (n1 := noise2D (cos a) (sin a)) in *. set (n2 := noise2D (sin a) (cos a)) in *.
  assert (Hs : -1 <= sin a <= 1) by apply SIN_bound.
  assert (Hc : -1 <= cos a <= 1) by apply COS_bound.
  replace (Q2R 0.5) with (/2) by (unfold Q2R; cbn; lra).
  replace (Q2R 0.45) with (45/100) by (unfold Q2R; cbn; lra).
  replace (Q2R 0.1) with (1/10) by (unfold Q2R; cbn; lra).
  assert (K1 : 0 <= w * (45/100 + 1/10 * n1) <= w * (55/100)) by nra.
  assert (K2 : 0 <= h * (45/100 + 1/10 * n2) <= h * (55/100)) by nra.
  set (k1 := w * (45/100 + 1/10 * n1)) in *. set (k2 := h * (45/100 + 1/10 * n2)) in *.
  replace (cos a * w * (45/100 + 1/10 * n1)) with (cos a * k1) by (unfold k1; ring).
  replace (sin a * h * (45/100 + 1/10 * n2)) with (sin a * k2) by (unfold k2; ring).
  split; split; nra.
Qed.

Lemma blob_point_closed (x y w h : R) :
  blob_point (num := R) x y w h 16 = blob_point (num := R) x y w h 0.
Proof.
  unfold blob_point, nat_num.
  cbn [js_add js_sub js_mul js_div js_lit js_sin js_cos js_PI JsNum_R JsMath_R].
  replace (Q2R (inject_Z (Z.of_nat 16)) / Q2R 16 * PI * Q2R 2) with (2 * PI)
    by (unfold Q2R; cbn; field).
  replace (Q2R (inject_Z (Z.of_nat 0)) / Q2R 16 * PI * Q2R 2) with 0
    by (unfold Q2R; cbn; field).
  rewrite cos_2PI, sin_2PI, cos_0, sin_0. reflexivity.
Qed.
End RFacts.

(** X9: in exact (real) arithmetic, [drawBlob] fills one closed path: a
    [moveTo] and 16 [lineTo]s whose last point is the first one, all inside the box
    [x - 0.05 w, x + 1.05 w] by [y - 0.05 h, y + 1.05 h] when [w, h >= 0],
    filled with the context's fill style. *)
Theorem drawBlob_outline (x y w h : R) (c : ctx) :
  exists p0 rest,
    emitted (drawBlob x y w h c) =
      [PFill (MoveTo (fst p0) (snd p0) :: map (fun p => LineTo (fst p) (snd p)) rest ++ [ClosePath])
             (fillStyle c)] /\
    List.length rest = 16%nat /\ last rest p0 = p0 /\
    (0 <= w -> 0 <= h ->
       Forall (fun p => x - w * (5/100) <= fst p <= x + w * (105/100) /\
                        y - h * (5/100) <= snd p <= y + h * (105/100)) (p0 :: rest)).
Proof.
  exists (blob_point x y w h 0), (map (blob_point x y w h) (seq 1 16)).
  split; [| split; [| split]].
  - rewrite drawBlob_result. cbn [emitted]. reflexivity.
  - rewrite length_map, length_seq. reflexivity.
  - cbn [seq map last]. apply blob_point_closed.
  - intros Hw Hh. constructor; [apply blob_point_bounds; assumption |].
    apply Forall_forall. intros p Hp. apply in_map_iff in Hp as (i & <- & _).
    apply blob_point_bounds; assumption.
Qed.




Lemma hill_count_spec (W : R) (j : nat) : (j < hill_count W)%nat <-> 8 * INR j <= W.
Proof.
  unfold hill_count. pose proof (pos_INR j) as Hj.
  destruct (Rle_dec 0 W) as [HW | HW].
  - destruct (base_Int_part (W / 8)) as [B1 B2].
    set (n := Int_part (W / 8)) in *.
    assert (Hn : (0 <= n)%Z).
    { destruct (Z_lt_le_dec n 0) as [Hl | Hl]; [| exact Hl].
      assert (IZR n <= -1) by (apply IZR_le; lia). lra. }
    rewrite INR_IZR_INZ. split; intros Hx.
    + assert (Hle : (Z.of_nat j <= n)%Z) by lia.
      apply IZR_le in Hle. lra.
    + destruct (Nat.lt_ge_cases j (S (Z.to_nat n))) as [Hl | Hl]; [exact Hl | exfalso].
      assert (Hle : (n + 1 <= Z.of_nat j)%Z) by lia.
      apply IZR_le in Hle. rewrite plus_IZR in Hle. lra.
  - split; [lia | intros Hx; lra].
Qed.

Lemma Q2R_8 : Q2R 8 = 8.
Proof. unfold Q2R; cbn; lra. Qed.

Lemma hill_line_run (W H t yBase : R) (i : nat) :
  forall fuel k c, (k <= hill_count W)%nat -> (hill_count W - k <= fuel)%nat ->
  hill_line fuel W H t yBase i (8 * INR k) c =
  Result _ tt (Ctx (fillStyle c) (strokeStyle c) (lineWidth c) (lineCap c)
    (path c ++ map (fun j => LineTo (8 * INR j) (hill_y t yBase i (8 * INR j)))
                   (seq k (hill_count W - k)))) [].
Proof.
  induction fuel as [|fuel IH]; intros k c Hk Hf.
  - replace (hill_count W - k)%nat with 0%nat by lia.
    destruct c; cbn. rewrite app_nil_r. reflexivity.
  - cbn [hill_line js_leb JsNum_R].
    destruct (Rle_dec (8 * INR k) W) as [Hle | Hgt].
    + apply hill_count_spec in Hle.
      unfold bind at 1. cbn [lineTo add_segment value final emitted].
      replace (js_add (8 * INR k) (js_lit 8)) with (8 * INR (S k))
        by (cbn [js_add js_lit JsNum_R]; rewrite S_INR, Q2R_8; ring).
      rewrite IH by (cbn; lia). cbn [emitted fillStyle strokeStyle lineWidth lineCap path].
      replace (hill_count W - k)%nat with (S (hill_count W - S k)) by lia.
      cbn [seq map]. rewrite <- app_assoc. reflexivity.
    + assert (Hn : ~ (k < hill_count W)%nat) by (rewrite hill_count_spec; exact Hgt).
      replace (hill_count W - k)%nat with 0%nat by lia.
      destruct c; cbn. rewrite app_nil_r. reflexivity.
Qed.

Lemma nat_num_R (i : nat) : nat_num (num := R) i = INR i.
Proof.
  unfold nat_num. cbn [js_lit JsNum_R]. unfold Q2R, inject_Z. cbn [Qnum Qden].
  rewrite INR_IZR_INZ. cbn [IZR IPR]. field.
Qed.

Ltac lit := unfold Q2R; cbn; lra.

Lemma drawHills_body (W H t : R) (i : nat) (c : ctx) :
  emitted ((set_fillStyle (Hsl ([# 140] + nat_num i * [# 8]) [# 25] ([# 70] - nat_num i * [# 8]))%js;;
    beginPath;;
    moveTo [# 0]%js H;;
    hill_line (S (Z.to_nat (js_floor (W / [# 8])%js))) W H t (H * ([# 0.55] - nat_num i * [# 0.07]))%js i [# 0]%js;;
    lineTo W H;;
    closePath;;
    fill) c) =
  [PFill (MoveTo 0 H :: map (fun j => LineTo (8 * INR j)
            (hill_y t (H * ([# 0.55] - nat_num i * [# 0.07]))%js i (8 * INR j))) (seq 0 (hill_count W))
          ++ [LineTo W H; ClosePath])
         (Hsl (140 + 8 * INR i) 25 (70 - 8 * INR i))].
Proof.
  replace (js_lit (num := R) 0) with (8 * INR 0) by (cbn; lit).
  unfold bind. cbn [set_fillStyle beginPath moveTo add_segment value final emitted fillStyle
                    strokeStyle lineWidth lineCap path].
  rewrite hill_line_run.
  2: lia.
  2:{ cbn [js_floor js_div js_lit JsNum_R]. rewrite Q2R_8. unfold hill_count.
      destruct (Rle_dec 0 W); lia. }
  cbn [lineTo closePath add_segment fill value final emitted fillStyle strokeStyle
       lineWidth lineCap path].
  rewrite Nat.sub_0_r, <- !app_assoc. cbn [app].
  replace (8 * INR 0) with 0 by (cbn; ring).
  rewrite nat_num_R.
  replace (js_add (js_lit 140) (js_mul (INR i) (js_lit 8))) with (140 + 8 * INR i)
    by (cbn [js_add js_mul js_lit JsNum_R]; lit).
  replace (js_lit (num := R) 25) with 25 by (cbn; lit).
  replace (js_sub (js_lit 70) (js_mul (INR i) (js_lit 8))) with (70 - 8 * INR i)
    by (cbn [js_sub js_mul js_lit JsNum_R]; lit).
  reflexivity.
Qed.

(** X10: [drawHills] fills three closed hill shapes, with the colours
    [hsl(140 + 8 i, 25%, 70 - 8 i%)]; each runs from [(0, H)] through the
    points at [x = 0, 8, ...] with [x <= W] to [(W, H)]. *)
Theorem drawHills_outline (W H t : R) (c : ctx) :
  (forall j, (j < hill_count W)%nat <-> 8 * INR j <= W) /\
  exists f : nat -> R -> R,
    emitted (drawHills W H t c) =
    map (fun i => PFill (MoveTo 0 H :: map (fun j => LineTo (8 * INR j) (f i (8 * INR j)))
                                           (seq 0 (hill_count W))
                          ++ [LineTo W H; ClosePath])
                        (Hsl (140 + 8 * INR i) 25 (70 - 8 * INR i)))
        (seq 0 3).
Proof.
  split; [apply hill_count_spec |].
  exists (fun i => hill_y t (H * ([# 0.55] - nat_num i * [# 0.07]))%js i).
  unfold drawHills.
  apply (for_each_emit _ _ (fun _ => tt)
           (fun i _ => PFill (MoveTo 0 H :: map (fun j => LineTo (8 * INR j)
              (hill_y t (H * ([# 0.55] - nat_num i * [# 0.07]))%js i (8 * INR j)))
              (seq 0 (hill_count W)) ++ [LineTo W H; ClosePath])
              (Hsl (140 + 8 * INR i) 25 (70 - 8 * INR i)))).
  intros i c'. split; [apply drawHills_body | reflexivity].
Qed.

Lemma Rrem_bounds (n d : R) :
  0 < d ->
  (0 <= n -> 0 <= js_rem n d < d) /\ (n < 0 -> - d < js_rem n d <= 0).
Proof.
  intros Hd. cbn [js_rem JsNum_R]. unfold Rtrunc.
  set (q := n / d).
  assert (Hn : n = d * q) by (unfold q; field; lra).
  destruct (Rle_dec 0 q) as [Hq | Hq].
  - destruct (base_Int_part q) as [B1 B2].
    assert (Hnq : 0 <= n) by (rewrite Hn; nra).
    split; intros Hs; [| lra].
    rewrite Hn. split; nra.
  - destruct (base_Int_part (- q)) as [B1 B2].
    rewrite opp_IZR.
    assert (Hnq : n < 0) by (rewrite Hn; nra).
    split; intros Hs; [lra |].
    rewrite Hn. split; nra.
Qed.

(** X11: for [W > 0], [drawForest] places a tree whose scrolled position
    [x - t * speed] is non-negative in [W, 3W), and one whose scrolled
    position is negative in (-W, W]. *)
Theorem tree_px_screen_range (W t : R) (tr : Tree.t R) :
  0 < W ->
  (0 <= Tree.x tr - t * layer_speed (Tree.layer tr) -> W <= tree_px W t tr < 3 * W) /\
  (Tree.x tr - t * layer_speed (Tree.layer tr) < 0 -> - W < tree_px W t tr <= W).
Proof.
  intros HW. unfold tree_px.
  assert (E2 : js_mul W (js_lit 2) = 2 * W) by (cbn [js_mul js_lit JsNum_R]; lit).
  rewrite E2. cbn [js_add js_sub js_mul JsNum_R].
  destruct (Rrem_bounds (Tree.x tr - t * layer_speed (Tree.layer tr)) (2 * W) ltac:(lra)) as [B1 B2].
  split; intros Hd; [specialize (B1 Hd) | specialize (B2 Hd)]; lra.
Qed.



(** X12: [drawGrass] strokes 140 blades, each a quadratic curve from the
    line [0.98 H] with height in [10, 50] and sway in [-8, 8]; for [W > 0]
    each root lies in (-W, W). *)
Theorem drawGrass_blades (W H t : R) (c : ctx) :
  List.length (emitted (drawGrass W H t c)) = 140%nat /\
  Forall (grass_ok W H (lineCap c)) (emitted (drawGrass W H t c)).
Proof.
  rewrite drawGrass_blade_emit. split; [rewrite length_map, length_seq; reflexivity |].
  apply Forall_forall. intros op Hop. apply in_map_iff in Hop as (i & <- & _).
  unfold grass_blade. cbv zeta. eexists _, _, _. split; [reflexivity |].
  cbn [js_add js_sub js_mul js_div js_lit js_sin JsNum_R JsMath_R].
  set (s1 := sin _). set (s2 := sin _). set (s3 := sin _).
  assert (B1 : -1 <= s1 <= 1) by apply SIN_bound.
  assert (B2 : -1 <= s2 <= 1) by apply SIN_bound.
  assert (B3 : -1 <= s3 <= 1) by apply SIN_bound.
  replace (Q2R 30) with 30 by lit. replace (Q2R 20) with 20 by lit. replace (Q2R 8) with 8 by lit.
  split; [lra | split; [lra |]].
  intros HW.
  set (n := (nat_num i / Q2R 140 * W + s3 * 20)%R).
  destruct (Rrem_bounds n W HW) as [R1 R2].
  set (r := js_rem n W) in *.
  destruct (Rle_dec 0 n) as [Hs | Hs];
    [specialize (R1 Hs); clear -R1 HW | specialize (R2 (Rnot_le_lt _ _ Hs)); clear -R2 HW]; lra.
Qed.

Section RenderProofs.
Import Render.
Local Open Scope R_scope.

Lemma render_loop_latched trees a c t0 ts :
  running a = true -> startTime a = t0 -> t0 <> 0 ->
  Forall2 (fun t ops => exists c', ops = frame_ops ((t - t0) / [# 1000])%js (width a) (height a) trees c')
          ts (render_loop trees a c ts).
Proof.
  intros Hr Hs Ht. revert c; induction ts as [|t ts IH]; intros c; [constructor|].
  cbn [render_loop]. unfold render. rewrite Hr. cbn [negb].
  destruct (Req_EM_T (startTime a) 0) as [E|E]; [congruence|].
  constructor; [exists c; rewrite Hs; reflexivity | apply IH].
Qed.

Lemma elapsed_zero : ((0 - 0) / [# 1000])%js = (0 : R).
Proof. cbn [js_sub js_div js_lit JsNum_R]. unfold Q2R. cbn [Qnum Qden IZR IPR IPR_2]. lra. Qed.

Lemma render_loop_zeros trees zs rest :
  Forall (fun z => z = 0) zs ->
  forall a c, running a = true -> startTime a = 0 ->
  exists a' c' pre,
    render_loop trees a c (zs ++ rest) = pre ++ render_loop trees a' c' rest /\
    List.length pre = List.length zs /\
    Forall (fun ops => exists c', ops = frame_ops 0 (width a) (height a) trees c') pre /\
    running a' = true /\ startTime a' = 0 /\ width a' = width a /\ height a' = height a.
Proof.
  induction 1 as [|z zs Ez Hz IH]; intros a c Hr Hs.
  - exists a, c, []. repeat split; auto.
  - subst z. cbn [app render_loop]. unfold render at 1. rewrite Hr. cbn [negb].
    destruct (Req_EM_T (startTime a) 0) as [_|E]; [|congruence].
    cbv beta iota zeta. cbn [startTime]. rewrite elapsed_zero.
    destruct (IH (Anim 0 (lastTime a) (running a) (width a) (height a))
                 (final (renderFrame 0 (width a) (height a) trees c)) Hr eq_refl)
      as (a' & c' & pre & E1 & E2 & E3 & E4 & E5 & E6 & E7).
    cbn [width height] in *.
    exists a', c', (frame_ops 0 (width a) (height a) trees c :: pre).
    rewrite Hr in E1. rewrite E1. repeat split; try assumption; try congruence.
    + cbn [List.length]. congruence.
    + constructor; [exists c; reflexivity | exact E3].
Qed.

(** X14: while the animation runs, [render] draws one frame per callback;
    frames with timestamp 0 before the first non-zero one [t0] are drawn at
    elapsed time 0, and every later frame at [(t - t0) / 1000]. *)
Theorem render_clock trees a c zs t0 ts :
  running a = true -> startTime a = 0 -> Forall (fun z => z = 0) zs -> t0 <> 0 ->
  let frames := render_loop trees a c (zs ++ t0 :: ts) in
  List.length frames = (List.length zs + S (List.length ts))%nat /\
  Forall (fun ops => exists c', ops = frame_ops 0 (width a) (height a) trees c')
         (firstn (List.length zs) frames) /\
  Forall2 (fun t ops => exists c', ops = frame_ops ((t - t0) / [# 1000])%js (width a) (height a) trees c')
          (t0 :: ts) (skipn (List.length zs) frames).
Proof.
  intros Hr Hs Hz Ht frames. subst frames.
  destruct (render_loop_zeros trees zs (t0 :: ts) Hz a c Hr Hs)
    as (a' & c' & pre & E1 & E2 & E3 & E4 & E5 & E6 & E7).
  rewrite E1, firstn_app, skipn_app, E2, Nat.sub_diag, firstn_O, app_nil_r,
    firstn_all2, skipn_all2 by lia.
  cbn [skipn app render_loop]. unfold render. rewrite E4. cbn [negb].
  destruct (Req_EM_T (startTime a') 0) as [_|E]; [|congruence].
  cbv beta iota zeta.
  assert (F : Forall2 (fun t ops => exists c', ops = frame_ops ((t - t0) / [# 1000])%js (width a) (height a) trees c')
      ts (render_loop trees (Anim t0 (lastTime a') (running a') (width a') (height a'))
            (final (renderFrame ((t0 - t0) / [# 1000])%js (width a') (height a') trees c')) ts)).
  { rewrite <- E6, <- E7. apply (render_loop_latched trees (Anim t0 (lastTime a') (running a') (width a') (height a'))); cbn [running startTime]; auto. }
  rewrite E4 in F. cbn [startTime width height]. repeat split.
  - cbn [List.length]. rewrite length_app, E2. cbn [List.length]. f_equal. f_equal.
    apply Forall2_length in F. lia.
  - exact E3.
  - constructor; [exists c'; rewrite E6, E7; reflexivity | exact F].
Qed.
End RenderProofs.

(** X15: [noise2D] takes its values in [0, 1]. *)
Theorem noise2D_range (x y : R) : 0 <= noise2D (num := R) x y <= 1.
Proof. apply noise2D_R_range. Qed.

Lemma tree_px_screen_range_witness :
  let tr := Tree.mk (num := R) 100 500 200 16 L1 130 in
  0 < 1280 /\
  ((0 <= Tree.x tr - 0 * layer_speed (Tree.layer tr) -> 1280 <= tree_px 1280 0 tr < 3 * 1280) /\
   (Tree.x tr - 0 * layer_speed (Tree.layer tr) < 0 -> - 1280 < tree_px 1280 0 tr <= 1280)).
Proof.
  intros tr. assert (HW : (0 < 1280)%R) by lra.
  split; [exact HW | exact (tree_px_screen_range 1280 0 tr HW)].
Defined.

Lemma render_clock_witness :
  let a := Render.mount Render.anim_init in
  let c := Ctx (css "#000") (css "#000") 1 "butt" [] in
  (Render.running a = true /\ Render.startTime a = 0 /\ Forall (fun z => z = 0) [0] /\ 16 <> 0) /\
  List.length (Render.render_loop [] a c ([0] ++ 16 :: [32])) = 3%nat.
Proof.
  intros a c.
  assert (H1 : Render.running a = true) by reflexivity.
  assert (H2 : Render.startTime a = 0) by reflexivity.
  assert (H3 : Forall (fun z => z = 0) [0]) by (repeat constructor).
  assert (H4 : 16 <> 0) by lra.
  split; [exact (conj H1 (conj H2 (conj H3 H4))) |].
  exact (proj1 (render_clock [] a c [0] 16 [32] H1 H2 H3 H4)).
Defined.
